(** * PuzzleCanvas: the tile geometry, hit testing, drag, snap and zoom logic

    A shallow embedding of [src/components/PuzzleCanvas.tsx].

    - JavaScript numbers are read as exact rationals ([Q]); comparisons of
      numbers are the decidable comparisons of [Q], and "the same number" is
      [==] ([Qeq]).  Rounding, infinities and NaN are outside this model; in
      particular a division by zero (a scale of 0, which needs a window of
      width 0 at load time) is not meaningful here.  The statements are
      written with the expressions and the comparisons of the code, so that
      they do not rest on identities of exact arithmetic; [==] appears in
      the worked examples and in the lemmas on the release at scale 1,
      which are about exact arithmetic.
    - The array [pieces] is a [list], read with [!!] and written with
      [<[i:=p]>]; the handlers return [option State], [None] standing for
      the behaviour of the source when it reads [pieces[draggedIndex]] past
      the end of the array.
    - React state and refs are the fields of [State]; every handler is a
      function from the state it sees to the state after it.
    - [Math.random] is an oracle: the n-th call made during one grid build
      returns [random n].
    - [draw] reads the state and writes none of it; it is not modelled. *)

From Stdlib Require Import Reals Lra.
From Stdlib Require Import QArith Qreals Lqa ZArith Lia.
From stdpp Require Import base list.

Set Default Proof Using "Type".
Local Open Scope Q_scope.

(** ** Constants *)

Definition ROWS : nat := 25.
Definition COLS : nat := 40.
Definition SNAP_THRESHOLD : Q := 20.

(** A loop counter used as a number. *)
Definition num (n : nat) : Q := inject_Z (Z.of_nat n).

(** ** Data *)

Module Piece.
Record t : Type := mk {
  sx : Q;
  sy : Q;
  x : Q;
  y : Q;
  width : Q;
  height : Q
}.

(** [{ ...piece, x: x', y: y' }] *)
Definition with_xy (p : t) (x' y' : Q) : t :=
  {| sx := sx p; sy := sy p; x := x'; y := y';
     width := width p; height := height p |}.
End Piece.

(** The fields of [HTMLImageElement] that the component reads. *)
Module Img.
Record t : Type := mk { width : Q; height : Q }.
End Img.

Module Size.
Record t : Type := mk { width : Q; height : Q }.
End Size.

Module Point.
Record t : Type := mk { x : Q; y : Q }.
End Point.

(** What [getBoundingClientRect] gives, as far as it is used. *)
Module DOMRect.
Record t : Type := mk { left : Q; top : Q }.
End DOMRect.

Record MouseEvent : Type := { clientX : Q; clientY : Q }.
Record WheelEvent : Type := { deltaY : Q }.

(** The hooks of the component. *)
Record State : Type := mkState {
  pieces : list Piece.t;
  image : option Img.t;
  draggedIndex : option nat;
  offsetRef : Point.t;
  canvasSize : Size.t;
  scaleRef : Q
}.

Definition initialState : State :=
  {| pieces := [];
     image := None;
     draggedIndex := None;
     offsetRef := Point.mk 0 0;
     canvasSize := Size.mk 0 0;
     scaleRef := 1 |}.

Definition setPieces (ps : list Piece.t) (s : State) : State :=
  {| pieces := ps; image := image s; draggedIndex := draggedIndex s;
     offsetRef := offsetRef s; canvasSize := canvasSize s;
     scaleRef := scaleRef s |}.

Definition setImage (img : Img.t) (s : State) : State :=
  {| pieces := pieces s; image := Some img; draggedIndex := draggedIndex s;
     offsetRef := offsetRef s; canvasSize := canvasSize s;
     scaleRef := scaleRef s |}.

Definition setDraggedIndex (d : option nat) (s : State) : State :=
  {| pieces := pieces s; image := image s; draggedIndex := d;
     offsetRef := offsetRef s; canvasSize := canvasSize s;
     scaleRef := scaleRef s |}.

Definition setOffset (o : Point.t) (s : State) : State :=
  {| pieces := pieces s; image := image s; draggedIndex := draggedIndex s;
     offsetRef := o; canvasSize := canvasSize s; scaleRef := scaleRef s |}.

Definition setCanvasSize (c : Size.t) (s : State) : State :=
  {| pieces := pieces s; image := image s; draggedIndex := draggedIndex s;
     offsetRef := offsetRef s; canvasSize := c; scaleRef := scaleRef s |}.

Definition setScale (k : Q) (s : State) : State :=
  {| pieces := pieces s; image := image s; draggedIndex := draggedIndex s;
     offsetRef := offsetRef s; canvasSize := canvasSize s; scaleRef := k |}.

(** ** The pieces of [Math] that are used *)

Definition Math_max (a b : Q) : Q := if Qle_bool a b then b else a.
Definition Math_min (a b : Q) : Q := if Qle_bool a b then a else b.
Definition Math_pow (a : Q) (n : Z) : Q := a ^ n.

(** [Math.sqrt a < t].  The rationals are not closed under square roots and
    the only square root of the source is compared at once with the snap
    threshold, so the comparison is embedded as a whole: for [0 <= a] the
    root is below [t] exactly when [t] is positive and [a < t * t]; for a
    negative [a] the root is NaN and the comparison is false.
    [sqrt_ltb_real] below relates it to the square root of the reals. *)
Definition sqrt_ltb (a t : Q) : bool :=
  Qle_bool 0 a && negb (Qle_bool t 0) && negb (Qle_bool (t * t) a).

(** ** The loops *)

(** [for (let i = 0; i < n; i++) body]: the loop state threaded through
    the [n] iterations. *)
Definition for_lt {A : Type} (n : nat) (body : nat → A → A) (a : A) : A :=
  fold_left (λ acc i, body i acc) (seq 0 n) a.

(** [newPieces.push(p)] *)
Definition push {A : Type} (l : list A) (a : A) : list A := l ++ [a].

(** ** [initializePieces] (lines 45-63)

    Two calls of [Math.random] are made for every tile, the one for [x]
    first; when a tile is pushed, [2 * length newPieces] calls have been
    made in this build. *)
Definition initializePieces (random : nat → Q) (img : Img.t) : list Piece.t :=
  let pieceWidth := Img.width img / num COLS in
  let pieceHeight := Img.height img / num ROWS in
  for_lt ROWS (λ row newPieces,
    for_lt COLS (λ col newPieces,
      let calls := (2 * length newPieces)%nat in
      push newPieces
        {| Piece.sx := num col * pieceWidth;
           Piece.sy := num row * pieceHeight;
           Piece.x := random calls * (Img.width img - pieceWidth);
           Piece.y := random (S calls) * (Img.height img - pieceHeight);
           Piece.width := pieceWidth;
           Piece.height := pieceHeight |})
      newPieces)
    [].

(** ** [img.onload] (lines 30-42) *)
Definition onload (img : Img.t) (innerWidth : Q) (random : nat → Q)
    (s : State) : State :=
  let s := setImage img s in
  let screenWidth := innerWidth in
  let scale := screenWidth / Img.width img in
  let s := setScale scale s in
  let width := Img.width img * scale in
  let height := Img.height img * scale in
  let s := setCanvasSize (Size.mk width height) s in
  setPieces (initializePieces random img) s.

(** ** [getPieceAt] (lines 90-103) *)

(** The test of line 98 for one piece. *)
Definition contains (scale : Q) (p : Piece.t) (x y : Q) : bool :=
  let scaledX := Piece.x p * scale in
  let scaledY := Piece.y p * scale in
  let scaledW := Piece.width p * scale in
  let scaledH := Piece.height p * scale in
  Qle_bool scaledX x && Qle_bool x (scaledX + scaledW)
  && Qle_bool scaledY y && Qle_bool y (scaledY + scaledH).

(** The loop with [n] indices left to visit: [n-1], ..., [0]. *)
Fixpoint getPieceAt_from (ps : list Piece.t) (scale x y : Q) (n : nat)
    : option nat :=
  match n with
  | O => None
  | S i =>
      match ps !! i with
      | Some p =>
          if contains scale p x y then Some i
          else getPieceAt_from ps scale x y i
      | None => None
      end
  end.

Definition getPieceAt (s : State) (x y : Q) : option nat :=
  getPieceAt_from (pieces s) (scaleRef s) x y (length (pieces s)).

(** ** [handleMouseDown] (lines 105-119) *)
Definition handleMouseDown (canvasRef : option DOMRect.t) (e : MouseEvent)
    (s : State) : option State :=
  match canvasRef with
  | None => Some s
  | Some rect =>
      let x := clientX e - DOMRect.left rect in
      let y := clientY e - DOMRect.top rect in
      match getPieceAt s x y with
      | Some index =>
          piece ← pieces s !! index;
          Some (setOffset
                  (Point.mk (x / scaleRef s - Piece.x piece)
                            (y / scaleRef s - Piece.y piece))
                  (setDraggedIndex (Some index) s))
      | None => Some s
      end
  end.

(** ** [handleMouseMove] (lines 121-134) *)
Definition handleMouseMove (canvasRef : option DOMRect.t) (e : MouseEvent)
    (s : State) : option State :=
  match draggedIndex s with
  | None => Some s
  | Some index =>
      match canvasRef with
      | None => Some s
      | Some rect =>
          let x := clientX e - DOMRect.left rect in
          let y := clientY e - DOMRect.top rect in
          piece ← pieces s !! index;
          let piece :=
            Piece.with_xy piece
              (x / scaleRef s - Point.x (offsetRef s))
              (y / scaleRef s - Point.y (offsetRef s)) in
          Some (setPieces (<[index := piece]> (pieces s)) s)
      end
  end.

(** ** [handleMouseUp] (lines 136-156) *)
Definition handleMouseUp (s : State) : option State :=
  match draggedIndex s with
  | None => Some s
  | Some index =>
      piece ← pieces s !! index;
      let correctX := Piece.sx piece / scaleRef s in
      let correctY := Piece.sy piece / scaleRef s in
      let radicand :=
        Math_pow (Piece.x piece - correctX) 2
        + Math_pow (Piece.y piece - correctY) 2 in
      let s' :=
        if sqrt_ltb radicand SNAP_THRESHOLD
        then setPieces
               (<[index := Piece.with_xy piece correctX correctY]> (pieces s))
               s
        else s in
      Some (setDraggedIndex None s')
  end.

(** ** [fixPuzzle] (lines 158-177) *)
Definition solvedPieces (img : Img.t) : list Piece.t :=
  let pieceWidth := Img.width img / num COLS in
  let pieceHeight := Img.height img / num ROWS in
  for_lt ROWS (λ row solvedPieces,
    for_lt COLS (λ col solvedPieces,
      push solvedPieces
        {| Piece.sx := num col * pieceWidth;
           Piece.sy := num row * pieceHeight;
           Piece.x := num col * pieceWidth;
           Piece.y := num row * pieceHeight;
           Piece.width := pieceWidth;
           Piece.height := pieceHeight |})
      solvedPieces)
    [].

Definition fixPuzzle (s : State) : State :=
  match image s with
  | None => s
  | Some img => setPieces (solvedPieces img) s
  end.

(** ** [messUpPuzzle] (lines 179-181) *)
Definition messUpPuzzle (random : nat → Q) (s : State) : State :=
  match image s with
  | Some img => setPieces (initializePieces random img) s
  | None => s
  end.

(** ** [handleWheel] (lines 183-196) *)
Definition handleWheel (canvasRef : option DOMRect.t) (e : WheelEvent)
    (s : State) : State :=
  let zoomAmount := if negb (Qle_bool 0 (deltaY e)) then 1 # 10 else - (1 # 10) in
  let newScale := Math_max (1 # 2) (Math_min 2 (scaleRef s + zoomAmount)) in
  let s := setScale newScale s in
  match canvasRef, image s with
  | Some _, Some img =>
      let width := Img.width img * newScale in
      let height := Img.height img * newScale in
      setCanvasSize (Size.mk width height) s
  | _, _ => s
  end.

(** ** The events of the component and its step function *)

Inductive Event : Type :=
  | ImgLoad (img : Img.t) (innerWidth : Q) (random : nat → Q)
  | MouseDown (canvasRef : option DOMRect.t) (e : MouseEvent)
  | MouseMove (canvasRef : option DOMRect.t) (e : MouseEvent)
  | MouseUp
  | FixClick
  | MessUpClick (random : nat → Q)
  | Wheel (canvasRef : option DOMRect.t) (e : WheelEvent).

Definition step (ev : Event) (s : State) : option State :=
  match ev with
  | ImgLoad img innerWidth random => Some (onload img innerWidth random s)
  | MouseDown c e => handleMouseDown c e s
  | MouseMove c e => handleMouseMove c e s
  | MouseUp => handleMouseUp s
  | FixClick => Some (fixPuzzle s)
  | MessUpClick random => Some (messUpPuzzle random s)
  | Wheel c e => Some (handleWheel c e s)
  end.

(** A sequence of events, oldest first. *)
Fixpoint run (evs : list Event) (s : State) : option State :=
  match evs with
  | [] => Some s
  | ev :: evs => s' ← step ev s; run evs s'
  end.

(** ** Vocabulary of the statements *)

(** The tile pushed by the two nested loops at [row], [col] when [n] tiles
    are already in the array; [grid] is the shape both builders share. *)
Section Grid.
Context {A : Type}.
Variable cell : nat → nat → nat → A.

Definition grid_row (C row : nat) (acc : list A) : list A :=
  for_lt C (λ col acc, push acc (cell row col (length acc))) acc.

Definition grid (R C : nat) : list A :=
  for_lt R (λ row acc, grid_row C row acc) [].
End Grid.

Definition scrambledCell (random : nat → Q) (img : Img.t) (row col n : nat)
    : Piece.t :=
  {| Piece.sx := num col * (Img.width img / num COLS);
     Piece.sy := num row * (Img.height img / num ROWS);
     Piece.x := random (2 * n)%nat * (Img.width img - Img.width img / num COLS);
     Piece.y :=
       random (S (2 * n)) * (Img.height img - Img.height img / num ROWS);
     Piece.width := Img.width img / num COLS;
     Piece.height := Img.height img / num ROWS |}.

Definition solvedCell (img : Img.t) (row col n : nat) : Piece.t :=
  {| Piece.sx := num col * (Img.width img / num COLS);
     Piece.sy := num row * (Img.height img / num ROWS);
     Piece.x := num col * (Img.width img / num COLS);
     Piece.y := num row * (Img.height img / num ROWS);
     Piece.width := Img.width img / num COLS;
     Piece.height := Img.height img / num ROWS |}.

(** The point lies in the scaled bounding box of the tile, the four edges
    included (the words of the hit test of the specification). *)
Definition in_scaled_box (scale : Q) (p : Piece.t) (x y : Q) : Prop :=
  Piece.x p * scale <= x <= Piece.x p * scale + Piece.width p * scale
  ∧ Piece.y p * scale <= y <= Piece.y p * scale + Piece.height p * scale.

(** The test of line 148 on the held tile. *)
Definition closeEnough (scale : Q) (piece : Piece.t) : bool :=
  sqrt_ltb
    (Math_pow (Piece.x piece - Piece.sx piece / scale) 2
     + Math_pow (Piece.y piece - Piece.sy piece / scale) 2)
    SNAP_THRESHOLD.

(** The source rectangle and the dimensions of the tile at index [i] of the
    grid cut from [img]. *)
Definition cut_of (img : Img.t) (i : nat) (p : Piece.t) : Prop :=
  Piece.sx p = num (i mod COLS) * Piece.width p
  ∧ Piece.sy p = num (i / COLS) * Piece.height p
  ∧ Piece.width p = Img.width img / num COLS
  ∧ Piece.height p = Img.height img / num ROWS.

(** The grid has been built from the loaded image. *)
Definition grid_inv (s : State) : Prop :=
  ∃ img, image s = Some img
    ∧ length (pieces s) = (ROWS * COLS)%nat
    ∧ ∀ i p, pieces s !! i = Some p → cut_of img i p.

(** The held tile, if any, is a tile of the array. *)
Definition drag_in_range (s : State) : Prop :=
  ∀ i, draggedIndex s = Some i → (i < length (pieces s))%nat.

(** The state before the first grid build: no tiles, no image, nothing
    held. *)
Definition blank (s : State) : Prop :=
  pieces s = [] ∧ image s = None ∧ draggedIndex s = None.

Definition is_load (ev : Event) : bool :=
  match ev with
  | ImgLoad _ _ _ => true
  | _ => false
  end.

(** Two tiles with the same source rectangle and the same dimensions. *)
Definition same_cut (p q : Piece.t) : Prop :=
  Piece.sx q = Piece.sx p ∧ Piece.sy q = Piece.sy p
  ∧ Piece.width q = Piece.width p ∧ Piece.height q = Piece.height p.


(** The events between the pointer-down that starts a drag and the release
    that ends it. *)
Definition during_drag (ev : Event) : bool :=
  match ev with
  | MouseDown _ _ | MouseUp => false
  | _ => true
  end.

Definition wheel_up (e : WheelEvent) : Prop := deltaY e < 0.
Definition wheel_down (e : WheelEvent) : Prop := 0 < deltaY e.

(** A sequence of wheel events, oldest first. *)
Definition handleWheels (ws : list (option DOMRect.t * WheelEvent))
    (s : State) : State :=
  fold_left (λ s w, handleWheel w.1 w.2 s) ws s.

(** ** A worked scenario

    A 1000 x 625 image shown in a window 2000 pixels wide (so at scale 2),
    solved; the canvas has its corner at the origin of the page.  The
    pointer goes down at (210, 10), inside the tile of row 0, column 4, and
    drags it. *)
Definition exampleImage : Img.t := Img.mk 1000 625.
Definition atOrigin : option DOMRect.t := Some (DOMRect.mk 0 0).
Definition pointer (x y : Q) : MouseEvent := {| clientX := x; clientY := y |}.

Definition solvedAtScale2 : list Event :=
  [ImgLoad exampleImage 2000 (λ _, 0); FixClick].

(** The tile is dragged 5 to the left of its solved position and released. *)
Definition dragNearHome : list Event :=
  solvedAtScale2
  ++ [MouseDown atOrigin (pointer 210 10); MouseMove atOrigin (pointer 200 10)].

(** The tile is dragged 55 to the left of its solved position and
    released. *)
Definition dragFarFromHome : list Event :=
  solvedAtScale2
  ++ [MouseDown atOrigin (pointer 210 10); MouseMove atOrigin (pointer 100 10)].

(** The square of the distance between the tile and its solved position
    [(sx, sy)], and the test "the distance is below the threshold" on it. *)
Definition nearSolvedPosition (piece : Piece.t) : bool :=
  sqrt_ltb
    (Math_pow (Piece.x piece - Piece.sx piece) 2
     + Math_pow (Piece.y piece - Piece.sy piece) 2)
    SNAP_THRESHOLD.

(** ** [draw] (lines 65-84)

    The calls made on the 2D context, in order.  [canvas] is the canvas
    element with its bitmap size, absent before mount; [getContext] tells
    whether a 2D context is available. *)
Module Canvas.
Record t : Type := mk { width : Q; height : Q }.
End Canvas.

Inductive CanvasCall : Type :=
  | clearRect (x y w h : Q)
  | drawImage (sx sy sWidth sHeight dx dy dWidth dHeight : Q).

Definition draw (canvas : option Canvas.t) (getContext : bool) (s : State)
    : option (list CanvasCall) :=
  match canvas, getContext, image s with
  | Some canvas, true, Some _ =>
      Some (clearRect 0 0 (Canvas.width canvas) (Canvas.height canvas)
            :: map (λ p,
                 drawImage (Piece.sx p) (Piece.sy p)
                   (Piece.width p) (Piece.height p)
                   (Piece.x p * scaleRef s) (Piece.y p * scaleRef s)
                   (Piece.width p * scaleRef s) (Piece.height p * scaleRef s))
                 (pieces s))
  | _, _, _ => None
  end.

(** The point lies in the destination rectangle of a [drawImage] call, the
    edges included. *)
Definition dest_contains (c : CanvasCall) (x y : Q) : Prop :=
  match c with
  | drawImage _ _ _ _ dx dy dWidth dHeight =>
      dx <= x <= dx + dWidth ∧ dy <= y <= dy + dHeight
  | clearRect _ _ _ _ => False
  end.


(** The canvas size is the image size times the scale. *)
Definition canvas_fits (s : State) : Prop :=
  ∃ img, image s = Some img
    ∧ canvasSize s
      = Size.mk (Img.width img * scaleRef s) (Img.height img * scaleRef s).

(** The wheel events reach the handler through the mounted canvas. *)
Definition wheel_on_canvas (ev : Event) : bool :=
  match ev with
  | Wheel None _ => false
  | _ => true
  end.

(** * Properties *)

Arguments initializePieces : simpl never.
Arguments solvedPieces : simpl never.
Arguments for_lt : simpl never.

(** ** The loops *)

Lemma for_lt_S {A : Type} (n : nat) (body : nat → A → A) (a : A) :
  for_lt (S n) body a = body n (for_lt n body a).
Proof.
  unfold for_lt. rewrite seq_S, fold_left_app. reflexivity.
Qed.

Section GridFacts.
Context {A : Type}.
Variable cell : nat → nat → nat → A.

Lemma grid_row_spec (C row : nat) (acc : list A) :
  grid_row cell C row acc
  = acc ++ map (λ col, cell row col (length acc + col)%nat) (seq 0 C).
Proof.
  unfold grid_row. induction C as [|C IH].
  - cbn. by rewrite app_nil_r.
  - rewrite for_lt_S, IH. unfold push.
    rewrite seq_S, map_app, app_assoc. cbn [map].
    rewrite length_app, length_map, length_seq. reflexivity.
Qed.

Lemma grid_S (R C : nat) :
  grid cell (S R) C
  = grid cell R C
    ++ map (λ col, cell R col (length (grid cell R C) + col)%nat) (seq 0 C).
Proof. unfold grid. rewrite for_lt_S. apply grid_row_spec. Qed.

Lemma grid_length (R C : nat) : length (grid cell R C) = (R * C)%nat.
Proof.
  induction R as [|R IH]; [reflexivity|].
  rewrite grid_S, length_app, length_map, length_seq, IH. lia.
Qed.

(** Row-major order. *)
Lemma grid_lookup (R C row col : nat) :
  (row < R)%nat → (col < C)%nat →
  grid cell R C !! (row * C + col)%nat
  = Some (cell row col (row * C + col)%nat).
Proof.
  induction R as [|R IH]; intros Hrow Hcol; [lia|].
  rewrite grid_S. destruct (decide (row = R)) as [->|Hne].
  - rewrite lookup_app_r by (rewrite grid_length; lia).
    rewrite grid_length, list_lookup_fmap.
    replace (R * C + col - R * C)%nat with col by lia.
    rewrite lookup_seq_lt by done. reflexivity.
  - rewrite lookup_app_l by (rewrite grid_length; nia).
    apply IH; [lia|done].
Qed.

Lemma grid_lookup_index (R C i : nat) (a : A) :
  grid cell R C !! i = Some a →
  (i < R * C)%nat ∧ a = cell (i / C) (i mod C) i.
Proof.
  intros Hi. assert (i < R * C)%nat as Hlt.
  { rewrite <- grid_length. by eapply lookup_lt_Some. }
  split; [done|].
  assert (C ≠ 0)%nat as HC by lia.
  pose proof (Nat.div_mod_eq i C) as Hdm.
  pose proof (Nat.mod_upper_bound i C HC) as Hmod.
  assert (i / C < R)%nat as Hdiv by (apply Nat.Div0.div_lt_upper_bound; lia).
  pose proof (grid_lookup R C (i / C) (i mod C) Hdiv Hmod) as Hl.
  replace (i / C * C + i mod C)%nat with i in Hl by lia.
  congruence.
Qed.
End GridFacts.

Lemma initializePieces_grid (random : nat → Q) (img : Img.t) :
  initializePieces random img = grid (scrambledCell random img) ROWS COLS.
Proof.
  unfold initializePieces, grid, grid_row, scrambledCell.
  cbv beta zeta. reflexivity.
Qed.

Lemma solvedPieces_grid (img : Img.t) :
  solvedPieces img = grid (solvedCell img) ROWS COLS.
Proof.
  unfold solvedPieces, grid, grid_row, solvedCell.
  cbv beta zeta. reflexivity.
Qed.

Lemma initializePieces_length (random : nat → Q) (img : Img.t) :
  length (initializePieces random img) = (ROWS * COLS)%nat.
Proof. rewrite initializePieces_grid. apply grid_length. Qed.

Lemma solvedPieces_length (img : Img.t) :
  length (solvedPieces img) = (ROWS * COLS)%nat.
Proof. rewrite solvedPieces_grid. apply grid_length. Qed.

Lemma initializePieces_cut random img i p :
  initializePieces random img !! i = Some p → cut_of img i p.
Proof.
  rewrite initializePieces_grid. intros [_ ->]%grid_lookup_index.
  by repeat split.
Qed.

Lemma solvedPieces_cut img i p :
  solvedPieces img !! i = Some p → cut_of img i p.
Proof.
  rewrite solvedPieces_grid. intros [_ ->]%grid_lookup_index.
  by repeat split.
Qed.

(** ** The grid builder *)

(** C2: for every image the grid builder returns exactly
    [ROWS * COLS = 25 * 40 = 1000] tiles, every tile is
    [imageWidth / COLS] wide and [imageHeight / ROWS] high, and the tile of
    grid coordinates [(row, col)] sits at the row-major index
    [row * COLS + col] with source origin [(col * width, row * height)]. *)
Theorem C2_grid_builder (random : nat → Q) (img : Img.t) (row col : nat) :
  (row < ROWS)%nat → (col < COLS)%nat →
  length (initializePieces random img) = (ROWS * COLS)%nat
  ∧ (ROWS * COLS)%nat = 1000%nat
  ∧ (∀ i p, initializePieces random img !! i = Some p →
       Piece.width p = Img.width img / num COLS
       ∧ Piece.height p = Img.height img / num ROWS)
  ∧ ∃ p, initializePieces random img !! (row * COLS + col)%nat = Some p
      ∧ Piece.sx p = num col * Piece.width p
      ∧ Piece.sy p = num row * Piece.height p.
Proof.
  intros Hrow Hcol. split; [apply initializePieces_length|].
  split; [reflexivity|]. split.
  - intros i p Hp. apply initializePieces_cut in Hp as (_ & _ & Hw & Hh).
    by split.
  - rewrite initializePieces_grid.
    exists (scrambledCell random img row col (row * COLS + col)).
    split; [by apply grid_lookup|by split].
Qed.

Lemma C2_grid_builder_witness :
  (24 < ROWS)%nat ∧ (39 < COLS)%nat
  ∧ ∃ p, initializePieces (λ _, 0) (Img.mk 1000 625) !! (24 * COLS + 39)%nat
         = Some p
      ∧ Piece.sx p = num 39 * Piece.width p
      ∧ Piece.sy p = num 24 * Piece.height p.
Proof.
  split; [unfold ROWS; lia|]. split; [unfold COLS; lia|].
  apply (C2_grid_builder (λ _, 0) (Img.mk 1000 625) 24 39);
    [unfold ROWS; lia | unfold COLS; lia].
Defined.

(** ** Solve *)

Lemma fixPuzzle_pieces (s : State) (img : Img.t) :
  image s = Some img → pieces (fixPuzzle s) = solvedPieces img.
Proof. intros H. unfold fixPuzzle. by rewrite H. Qed.

Lemma fixPuzzle_idem (s : State) : fixPuzzle (fixPuzzle s) = fixPuzzle s.
Proof.
  unfold fixPuzzle.
  destruct (image s) as [img|] eqn:Himg; cbn [image setPieces]; rewrite Himg.
  - reflexivity.
  - reflexivity.
Qed.

(** C3: with an image loaded, after [fixPuzzle] every tile stands at
    [(col * width, row * height)] for its grid coordinates [(row, col)]
    (the tile of index [i] has row [i / COLS] and column [i mod COLS]);
    solving twice gives the same state as solving once; and for a 1000 x 625
    image every tile is 25 x 25, the tile of row 0, column 0 stands at
    [(0, 0)] and the tile of row 24, column 39 at [(975, 600)]. *)
Theorem C3_solve (s : State) (img : Img.t) :
  image s = Some img →
  length (pieces (fixPuzzle s)) = (ROWS * COLS)%nat
  ∧ (∀ i p, pieces (fixPuzzle s) !! i = Some p →
       Piece.x p = num (i mod COLS) * Piece.width p
       ∧ Piece.y p = num (i / COLS) * Piece.height p)
  ∧ (∀ row col, (row < ROWS)%nat → (col < COLS)%nat →
       ∃ p, pieces (fixPuzzle s) !! (row * COLS + col)%nat = Some p
         ∧ Piece.x p = num col * Piece.width p
         ∧ Piece.y p = num row * Piece.height p)
  ∧ fixPuzzle (fixPuzzle s) = fixPuzzle s
  ∧ (Img.width img == 1000 → Img.height img == 625 →
       (∀ i p, pieces (fixPuzzle s) !! i = Some p →
          Piece.width p == 25 ∧ Piece.height p == 25)
       ∧ (∃ p, pieces (fixPuzzle s) !! (0 * COLS + 0)%nat = Some p
            ∧ Piece.x p == 0 ∧ Piece.y p == 0)
       ∧ (∃ p, pieces (fixPuzzle s) !! (24 * COLS + 39)%nat = Some p
            ∧ Piece.x p == 975 ∧ Piece.y p == 600)).
Proof.
  intros Himg. rewrite (fixPuzzle_pieces s img Himg).
  split; [apply solvedPieces_length|].
  rewrite solvedPieces_grid. split.
  { intros i p [_ ->]%grid_lookup_index. by split. }
  split.
  { intros row col Hrow Hcol.
    exists (solvedCell img row col (row * COLS + col)).
    split; [by apply grid_lookup|by split]. }
  split; [apply fixPuzzle_idem|].
  intros HW HH. split; [|split].
  - intros i p [_ ->]%grid_lookup_index. cbn. rewrite HW, HH. by split.
  - exists (solvedCell img 0 0 (0 * COLS + 0)).
    split; [apply grid_lookup; unfold ROWS, COLS; lia|].
    cbn. rewrite HW, HH. by split.
  - exists (solvedCell img 24 39 (24 * COLS + 39)).
    split; [apply grid_lookup; unfold ROWS, COLS; lia|].
    cbn. rewrite HW, HH. by split.
Qed.

Lemma C3_solve_witness :
  let s := setImage (Img.mk 1000 625) initialState in
  ∃ p, pieces (fixPuzzle s) !! (24 * COLS + 39)%nat = Some p
     ∧ Piece.x p == 975 ∧ Piece.y p == 600.
Proof.
  intros s.
  destruct (C3_solve s (Img.mk 1000 625) eq_refl) as (_ & _ & _ & _ & Hex).
  destruct (Hex ltac:(reflexivity) ltac:(reflexivity)) as (_ & _ & H).
  exact H.
Defined.

(** ** Scramble *)

Lemma num_COLS : num COLS = 40.
Proof. reflexivity. Qed.

Lemma num_ROWS : num ROWS = 25.
Proof. reflexivity. Qed.

(** A draw in [[0, 1)] scaled by a positive range stays in the range. *)
Lemma random_scaled (r a : Q) :
  0 <= r → r < 1 → 0 < a → 0 <= r * a ∧ r * a < a.
Proof.
  intros H0 H1 Ha. split.
  - apply Qmult_le_0_compat; lra.
  - assert (0 < (1 - r) * a) as H by (apply Qmult_lt_0_compat; lra). lra.
Qed.

Lemma initializePieces_bounds (random : nat → Q) (img : Img.t) i p :
  0 < Img.width img → 0 < Img.height img →
  (∀ n, 0 <= random n ∧ random n < 1) →
  initializePieces random img !! i = Some p →
  (0 <= Piece.x p ∧ Piece.x p < Img.width img - Piece.width p)
  ∧ (0 <= Piece.y p ∧ Piece.y p < Img.height img - Piece.height p).
Proof.
  intros HW HH Hr. rewrite initializePieces_grid.
  intros [_ ->]%grid_lookup_index. cbn [scrambledCell Piece.x Piece.y
    Piece.width Piece.height]. rewrite num_COLS, num_ROWS.
  unfold Qdiv. change (/ 40) with (1 # 40). change (/ 25) with (1 # 25).
  split; apply random_scaled; try apply Hr; lra.
Qed.

(** C4: with an image loaded (of positive width and height) and
    [Math.random] returning numbers of [[0, 1)], after [messUpPuzzle]
    every tile has [0 <= x < imageWidth - width] and
    [0 <= y < imageHeight - height].  The tile of index [i] takes its
    position from its own two draws and from nothing else: two tiles whose
    draws agree are put at the same place, nothing keeps them apart. *)
Theorem C4_scramble (random : nat → Q) (s : State) (img : Img.t) :
  image s = Some img →
  0 < Img.width img → 0 < Img.height img →
  (∀ n, 0 <= random n ∧ random n < 1) →
  length (pieces (messUpPuzzle random s)) = (ROWS * COLS)%nat
  ∧ (∀ i p, pieces (messUpPuzzle random s) !! i = Some p →
       (0 <= Piece.x p ∧ Piece.x p < Img.width img - Piece.width p)
       ∧ (0 <= Piece.y p ∧ Piece.y p < Img.height img - Piece.height p)
       ∧ Piece.x p = random (2 * i)%nat * (Img.width img - Piece.width p)
       ∧ Piece.y p
         = random (S (2 * i)) * (Img.height img - Piece.height p))
  ∧ (∀ i j p q,
       pieces (messUpPuzzle random s) !! i = Some p →
       pieces (messUpPuzzle random s) !! j = Some q →
       random (2 * i)%nat = random (2 * j)%nat →
       random (S (2 * i)) = random (S (2 * j)) →
       Piece.x p = Piece.x q ∧ Piece.y p = Piece.y q).
Proof.
  intros Himg HW HH Hr. unfold messUpPuzzle. rewrite Himg.
  cbn [pieces setPieces].
  split; [apply initializePieces_length|]. split.
  - intros i p Hp.
    destruct (initializePieces_bounds random img i p HW HH Hr Hp) as [Hx Hy].
    split; [done|]. split; [done|].
    rewrite initializePieces_grid in Hp.
    apply grid_lookup_index in Hp as [_ ->]. by split.
  - intros i j p q Hp Hq Hij Hij'.
    rewrite initializePieces_grid in Hp, Hq.
    apply grid_lookup_index in Hp as [_ ->].
    apply grid_lookup_index in Hq as [_ ->].
    cbn [scrambledCell Piece.x Piece.y]. by rewrite Hij, Hij'.
Qed.

Lemma C4_scramble_witness :
  ∃ p, pieces (messUpPuzzle (λ _, 1 # 2)
                 (setImage (Img.mk 1000 625) initialState)) !! 0%nat
       = Some p
     ∧ (0 <= Piece.x p ∧ Piece.x p < 1000 - Piece.width p)
     ∧ (0 <= Piece.y p ∧ Piece.y p < 625 - Piece.height p).
Proof.
  assert (0 < 1000) as HW by reflexivity.
  assert (0 < 625) as HH by reflexivity.
  assert (∀ n : nat, 0 <= 1 # 2 ∧ 1 # 2 < 1) as Hr.
  { intros _. split; [discriminate|reflexivity]. }
  destruct (C4_scramble (λ _, 1 # 2)
              (setImage (Img.mk 1000 625) initialState)
              (Img.mk 1000 625) eq_refl HW HH Hr) as (_ & Hb & _).
  exists (scrambledCell (λ _, 1 # 2) (Img.mk 1000 625) 0 0 0).
  assert (pieces (messUpPuzzle (λ _, 1 # 2)
                    (setImage (Img.mk 1000 625) initialState)) !! 0%nat
          = Some (scrambledCell (λ _, 1 # 2) (Img.mk 1000 625) 0 0 0)) as Hp.
  { vm_compute. reflexivity. }
  split; [exact Hp|].
  destruct (Hb _ _ Hp) as (Hx & Hy & _). by split.
Defined.

(** C4 fails for an image of width 0: after a load and a scramble of a
    0 x 625 image, with [Math.random] returning 1/2, tile 0 has [x = 0]
    while [imageWidth - width = 0], so [x] is not below it: the interval
    [[0, imageWidth - width)] is empty. *)
Lemma C4_zero_width_image :
  ∃ p,
    image (messUpPuzzle (λ _, 1 # 2)
             (onload (Img.mk 0 625) 1000 (λ _, 1 # 2) initialState))
    = Some (Img.mk 0 625)
    ∧ (0 <= 1 # 2 ∧ 1 # 2 < 1)
    ∧ pieces (messUpPuzzle (λ _, 1 # 2)
                (onload (Img.mk 0 625) 1000 (λ _, 1 # 2) initialState))
      !! 0%nat = Some p
    ∧ ¬ (Piece.x p < Img.width (Img.mk 0 625) - Piece.width p).
Proof.
  exists (scrambledCell (λ _, 1 # 2) (Img.mk 0 625) 0 0 0).
  split; [reflexivity|].
  split; [split; [discriminate|reflexivity]|].
  split; [vm_compute; reflexivity|].
  vm_compute. discriminate.
Qed.

(** ** Hit test *)

Lemma contains_spec (scale : Q) (p : Piece.t) (x y : Q) :
  contains scale p x y = true ↔ in_scaled_box scale p x y.
Proof.
  unfold contains, in_scaled_box. cbv zeta.
  rewrite !andb_true_iff, !Qle_bool_iff. tauto.
Qed.

Lemma contains_false (scale : Q) (p : Piece.t) (x y : Q) :
  contains scale p x y = false ↔ ¬ in_scaled_box scale p x y.
Proof.
  rewrite <- contains_spec.
  destruct (contains scale p x y); split; done.
Qed.

(** The loop invariant of [getPieceAt]: with the indices [n], ...,
    [length ps - 1] already rejected, the loop returns the highest index
    below [n] whose tile holds the point. *)
Lemma getPieceAt_from_spec (ps : list Piece.t) (scale x y : Q) (n : nat) :
  (n ≤ length ps)%nat →
  match getPieceAt_from ps scale x y n with
  | Some i =>
      (i < n)%nat
      ∧ (∃ p, ps !! i = Some p ∧ contains scale p x y = true)
      ∧ ∀ j q, (i < j < n)%nat → ps !! j = Some q →
          contains scale q x y = false
  | None =>
      ∀ j q, (j < n)%nat → ps !! j = Some q → contains scale q x y = false
  end.
Proof.
  induction n as [|n IH]; intros Hn; cbn [getPieceAt_from].
  - intros j q Hj. lia.
  - destruct (lookup_lt_is_Some_2 ps n ltac:(lia)) as [p Hp]. rewrite Hp.
    destruct (contains scale p x y) eqn:Hc.
    + split; [lia|]. split; [by exists p|]. intros j q Hj. lia.
    + specialize (IH ltac:(lia)).
      destruct (getPieceAt_from ps scale x y n) as [i|].
      * destruct IH as (Hi & Hex & Habove). split; [lia|]. split; [done|].
        intros j q Hj Hq. destruct (decide (j = n)) as [->|Hne].
        -- congruence.
        -- apply (Habove j q); [lia|done].
      * intros j q Hj Hq. destruct (decide (j = n)) as [->|Hne].
        -- congruence.
        -- apply (IH j q); [lia|done].
Qed.

Lemma getPieceAt_in_range (s : State) (x y : Q) (i : nat) :
  getPieceAt s x y = Some i → (i < length (pieces s))%nat.
Proof.
  intros H. unfold getPieceAt in H.
  pose proof (getPieceAt_from_spec (pieces s) (scaleRef s) x y
                (length (pieces s)) ltac:(lia)) as Hs.
  rewrite H in Hs. by destruct Hs.
Qed.

(** C5: for every point and every tile sequence, [getPieceAt] returns the
    highest index whose tile has the point in its scaled bounding box
    [[x * scale, x * scale + width * scale]] by
    [[y * scale, y * scale + height * scale]], the four edges included,
    and returns nothing when no tile holds the point; on the empty sequence
    it returns nothing. *)
Theorem C5_hit_test (s : State) (x y : Q) :
  match getPieceAt s x y with
  | Some i =>
      (∃ p, pieces s !! i = Some p ∧ in_scaled_box (scaleRef s) p x y)
      ∧ ∀ j q, (i < j)%nat → pieces s !! j = Some q →
          ¬ in_scaled_box (scaleRef s) q x y
  | None =>
      ∀ j q, pieces s !! j = Some q → ¬ in_scaled_box (scaleRef s) q x y
  end
  ∧ (pieces s = [] → getPieceAt s x y = None).
Proof.
  split.
  - unfold getPieceAt.
    pose proof (getPieceAt_from_spec (pieces s) (scaleRef s) x y
                  (length (pieces s)) ltac:(lia)) as Hs.
    destruct (getPieceAt_from _ _ _ _ _) as [i|].
    + destruct Hs as (Hi & (p & Hp & Hc) & Habove). split.
      * exists p. split; [done|]. by apply contains_spec.
      * intros j q Hj Hq. apply contains_false.
        apply (Habove j q); [|done].
        split; [done|]. by eapply lookup_lt_Some.
    + intros j q Hq. apply contains_false. apply (Hs j q); [|done].
      by eapply lookup_lt_Some.
  - intros Hnil. unfold getPieceAt. by rewrite Hnil.
Qed.

(** ** Pointer-down *)

Lemma handleMouseDown_hit (rect : DOMRect.t) (e : MouseEvent) (s : State)
    (i : nat) (p : Piece.t) :
  getPieceAt s (clientX e - DOMRect.left rect) (clientY e - DOMRect.top rect)
  = Some i →
  pieces s !! i = Some p →
  handleMouseDown (Some rect) e s
  = Some (setOffset
            (Point.mk
               ((clientX e - DOMRect.left rect) / scaleRef s - Piece.x p)
               ((clientY e - DOMRect.top rect) / scaleRef s - Piece.y p))
            (setDraggedIndex (Some i) s)).
Proof.
  intros Hhit Hp. unfold handleMouseDown. cbv zeta. rewrite Hhit.
  cbn [mbind option_bind]. by rewrite Hp.
Qed.

(** [handleMouseDown] always returns, never touches the tiles, and holds a
    tile of the array afterwards. *)
Lemma handleMouseDown_frame (c : option DOMRect.t) (e : MouseEvent)
    (s : State) :
  drag_in_range s →
  ∃ s', handleMouseDown c e s = Some s'
    ∧ pieces s' = pieces s ∧ image s' = image s
    ∧ scaleRef s' = scaleRef s ∧ canvasSize s' = canvasSize s
    ∧ drag_in_range s'.
Proof.
  intros Hd. unfold handleMouseDown. destruct c as [rect|]; [|by exists s].
  cbv zeta.
  destruct (getPieceAt s _ _) as [i|] eqn:Hhit; [|by exists s].
  pose proof (getPieceAt_in_range _ _ _ _ Hhit) as Hi.
  destruct (lookup_lt_is_Some_2 _ _ Hi) as [p Hp].
  cbn [mbind option_bind]. rewrite Hp. eexists. split; [reflexivity|].
  repeat split. intros j [= <-]. exact Hi.
Qed.

Lemma handleMouseDown_pieces (c : option DOMRect.t) (e : MouseEvent)
    (s s' : State) :
  handleMouseDown c e s = Some s' → pieces s' = pieces s.
Proof.
  unfold handleMouseDown. destruct c as [rect|]; [|by intros [= <-]].
  cbv zeta. destruct (getPieceAt s _ _) as [i|]; [|by intros [= <-]].
  destruct (pieces s !! i) as [p|]; cbn; [by intros [= <-]|done].
Qed.

(** ** Pointer-move *)

Lemma handleMouseMove_idle (c : option DOMRect.t) (e : MouseEvent)
    (s : State) :
  draggedIndex s = None → handleMouseMove c e s = Some s.
Proof. intros H. unfold handleMouseMove. by rewrite H. Qed.

Lemma handleMouseMove_drag (rect : DOMRect.t) (e : MouseEvent) (s : State)
    (i : nat) (p : Piece.t) :
  draggedIndex s = Some i →
  pieces s !! i = Some p →
  handleMouseMove (Some rect) e s
  = Some (setPieces
            (<[i := Piece.with_xy p
                      ((clientX e - DOMRect.left rect) / scaleRef s
                       - Point.x (offsetRef s))
                      ((clientY e - DOMRect.top rect) / scaleRef s
                       - Point.y (offsetRef s))]> (pieces s))
            s).
Proof.
  intros Hd Hp. unfold handleMouseMove. rewrite Hd. cbv zeta.
  cbn [mbind option_bind]. by rewrite Hp.
Qed.

(** Whatever the canvas, a move returns when the held tile is in the
    array; it keeps the length of the array, the held index, the offset,
    the image and the scale. *)
Lemma handleMouseMove_frame (c : option DOMRect.t) (e : MouseEvent)
    (s : State) :
  drag_in_range s →
  ∃ s', handleMouseMove c e s = Some s'
    ∧ length (pieces s') = length (pieces s)
    ∧ draggedIndex s' = draggedIndex s ∧ offsetRef s' = offsetRef s
    ∧ image s' = image s ∧ scaleRef s' = scaleRef s
    ∧ canvasSize s' = canvasSize s.
Proof.
  intros Hr. destruct (draggedIndex s) as [i|] eqn:Hd.
  - destruct c as [rect|].
    + destruct (lookup_lt_is_Some_2 _ _ (Hr i Hd)) as [p Hp].
      rewrite (handleMouseMove_drag rect e s i p Hd Hp).
      eexists. split; [reflexivity|].
      cbn [pieces setPieces draggedIndex offsetRef image scaleRef canvasSize].
      by rewrite length_insert.
    + exists s. unfold handleMouseMove. by rewrite Hd.
  - exists s. by rewrite handleMouseMove_idle.
Qed.

(** A move writes the position of the held tile and nothing else of it. *)
Lemma handleMouseMove_cut (c : option DOMRect.t) (e : MouseEvent)
    (s s' : State) (img : Img.t) (j : nat) (q : Piece.t) :
  handleMouseMove c e s = Some s' →
  (∀ i p, pieces s !! i = Some p → cut_of img i p) →
  pieces s' !! j = Some q → cut_of img j q.
Proof.
  unfold handleMouseMove.
  destruct (draggedIndex s) as [i|]; [|intros [= <-]; by auto].
  destruct c as [rect|]; [|intros [= <-]; by auto].
  cbv zeta. destruct (pieces s !! i) as [p|] eqn:Hp; cbn; [|done].
  intros [= <-] Hcut. cbn [pieces setPieces].
  destruct (decide (j = i)) as [->|Hne].
  - rewrite list_lookup_insert_eq by (by eapply lookup_lt_Some).
    intros [= <-]. exact (Hcut i p Hp).
  - rewrite list_lookup_insert_ne by done. apply Hcut.
Qed.

(** ** Release *)

Lemma handleMouseUp_idle (s : State) :
  draggedIndex s = None → handleMouseUp s = Some s.
Proof. intros H. unfold handleMouseUp. by rewrite H. Qed.

Lemma handleMouseUp_snap (s : State) (i : nat) (p : Piece.t) :
  draggedIndex s = Some i → pieces s !! i = Some p →
  closeEnough (scaleRef s) p = true →
  handleMouseUp s
  = Some (setDraggedIndex None
            (setPieces
               (<[i := Piece.with_xy p (Piece.sx p / scaleRef s)
                         (Piece.sy p / scaleRef s)]> (pieces s))
               s)).
Proof.
  intros Hd Hp Hc. unfold handleMouseUp. rewrite Hd, Hp.
  cbn [mbind option_bind]. cbv zeta.
  unfold closeEnough in Hc. by rewrite Hc.
Qed.

Lemma handleMouseUp_no_snap (s : State) (i : nat) (p : Piece.t) :
  draggedIndex s = Some i → pieces s !! i = Some p →
  closeEnough (scaleRef s) p = false →
  handleMouseUp s = Some (setDraggedIndex None s).
Proof.
  intros Hd Hp Hc. unfold handleMouseUp. rewrite Hd, Hp.
  cbn [mbind option_bind]. cbv zeta.
  unfold closeEnough in Hc. by rewrite Hc.
Qed.

(** The release returns when the held tile is in the array, and always
    leaves the component idle. *)
Lemma handleMouseUp_frame (s : State) :
  drag_in_range s →
  ∃ s', handleMouseUp s = Some s'
    ∧ draggedIndex s' = None
    ∧ length (pieces s') = length (pieces s)
    ∧ offsetRef s' = offsetRef s ∧ image s' = image s
    ∧ scaleRef s' = scaleRef s ∧ canvasSize s' = canvasSize s.
Proof.
  intros Hr. destruct (draggedIndex s) as [i|] eqn:Hd.
  - destruct (lookup_lt_is_Some_2 _ _ (Hr i Hd)) as [p Hp].
    destruct (closeEnough (scaleRef s) p) eqn:Hc.
    + rewrite (handleMouseUp_snap s i p Hd Hp Hc).
      eexists. split; [reflexivity|].
      cbn [pieces setPieces setDraggedIndex draggedIndex offsetRef image
           scaleRef canvasSize].
      by rewrite length_insert.
    + rewrite (handleMouseUp_no_snap s i p Hd Hp Hc). by eexists.
  - exists s. by rewrite handleMouseUp_idle.
Qed.

Lemma handleMouseUp_cut (s s' : State) (img : Img.t) (j : nat)
    (q : Piece.t) :
  handleMouseUp s = Some s' →
  (∀ i p, pieces s !! i = Some p → cut_of img i p) →
  pieces s' !! j = Some q → cut_of img j q.
Proof.
  unfold handleMouseUp.
  destruct (draggedIndex s) as [i|]; [|intros [= <-]; by auto].
  destruct (pieces s !! i) as [p|] eqn:Hp; cbn [mbind option_bind]; [|done].
  cbv zeta. destruct (sqrt_ltb _ _); intros [= <-] Hcut;
    cbn [pieces setPieces setDraggedIndex]; [|by apply Hcut].
  destruct (decide (j = i)) as [->|Hne].
  - rewrite list_lookup_insert_eq by (by eapply lookup_lt_Some).
    intros [= <-]. exact (Hcut i p Hp).
  - rewrite list_lookup_insert_ne by done. apply Hcut.
Qed.

(** ** Zoom *)

Lemma Qle_bool_false (a b : Q) : Qle_bool a b = false → b < a.
Proof.
  intros H. destruct (Qlt_le_dec b a) as [Hlt|Hle]; [done|].
  apply Qle_bool_iff in Hle. congruence.
Qed.

(** Case analysis on every comparison of [Math.max] and [Math.min], the
    innermost first. *)
Ltac math_cases :=
  unfold Math_max, Math_min in *;
  repeat match goal with
    | |- context [Qle_bool ?a ?b] =>
        lazymatch a with context [Qle_bool _ _] => fail | _ => idtac end;
        lazymatch b with context [Qle_bool _ _] => fail | _ => idtac end;
        let H := fresh "Hcmp" in
        destruct (Qle_bool a b) eqn:H;
        [apply Qle_bool_iff in H | apply Qle_bool_false in H]
    end.

Lemma clamp_bounds (v : Q) :
  1 # 2 <= Math_max (1 # 2) (Math_min 2 v)
  ∧ Math_max (1 # 2) (Math_min 2 v) <= 2.
Proof. split; math_cases; lra. Qed.

(** The three cases of the clamp, in the terms of the code. *)
Lemma clamp_cases (v : Q) :
  (1 # 2 <= v → v < 2 → Math_max (1 # 2) (Math_min 2 v) = v)
  ∧ (2 <= v → Math_max (1 # 2) (Math_min 2 v) = 2)
  ∧ (v < 1 # 2 → Math_max (1 # 2) (Math_min 2 v) = 1 # 2).
Proof.
  repeat apply conj; intros; math_cases;
    first [reflexivity | exfalso; lra].
Qed.

Lemma wheel_up_test (e : WheelEvent) :
  wheel_up e → negb (Qle_bool 0 (deltaY e)) = true.
Proof.
  unfold wheel_up. intros H. destruct (Qle_bool 0 (deltaY e)) eqn:Hc; [|done].
  apply Qle_bool_iff in Hc. lra.
Qed.

Lemma not_wheel_up_test (e : WheelEvent) :
  ¬ wheel_up e → negb (Qle_bool 0 (deltaY e)) = false.
Proof.
  unfold wheel_up. intros H. destruct (Qle_bool 0 (deltaY e)) eqn:Hc; [done|].
  apply Qle_bool_false in Hc. done.
Qed.

Lemma handleWheel_scale (c : option DOMRect.t) (e : WheelEvent) (s : State) :
  scaleRef (handleWheel c e s)
  = Math_max (1 # 2)
      (Math_min 2
         (scaleRef s
          + (if negb (Qle_bool 0 (deltaY e)) then 1 # 10 else - (1 # 10)))).
Proof.
  unfold handleWheel. cbv zeta. cbn [image setScale].
  destruct c, (image s); reflexivity.
Qed.

(** The wheel writes the scale and the canvas size and nothing else. *)
Lemma handleWheel_frame (c : option DOMRect.t) (e : WheelEvent) (s : State) :
  pieces (handleWheel c e s) = pieces s
  ∧ image (handleWheel c e s) = image s
  ∧ draggedIndex (handleWheel c e s) = draggedIndex s
  ∧ offsetRef (handleWheel c e s) = offsetRef s.
Proof.
  unfold handleWheel. cbv zeta. cbn [image setScale].
  destruct c, (image s) eqn:Himg;
    cbn [pieces image draggedIndex offsetRef setCanvasSize setScale];
    by rewrite ?Himg.
Qed.

Lemma handleWheel_canvas (rect : DOMRect.t) (e : WheelEvent) (s : State)
    (img : Img.t) :
  image s = Some img →
  canvasSize (handleWheel (Some rect) e s)
  = Size.mk (Img.width img * scaleRef (handleWheel (Some rect) e s))
            (Img.height img * scaleRef (handleWheel (Some rect) e s)).
Proof.
  intros Himg. rewrite handleWheel_scale.
  unfold handleWheel. cbv zeta. cbn [image setScale]. by rewrite Himg.
Qed.

Lemma handleWheels_snoc ws w (s : State) :
  handleWheels (ws ++ [w]) s = handleWheel w.1 w.2 (handleWheels ws s).
Proof. unfold handleWheels. by rewrite fold_left_app. Qed.

(** After at least one wheel event the scale is in [[0.5, 2]]. *)
Lemma handleWheels_bounds ws (s : State) :
  ws ≠ [] →
  1 # 2 <= scaleRef (handleWheels ws s) ∧ scaleRef (handleWheels ws s) <= 2.
Proof.
  destruct ws as [|w ws _] using rev_ind; [done|intros _].
  rewrite handleWheels_snoc, handleWheel_scale. apply clamp_bounds.
Qed.

(** C7: a wheel event adds 0.1 to the scale when the wheel goes up
    ([deltaY < 0]) and subtracts 0.1 otherwise, the result being clamped to
    [[0.5, 2]]: the new scale is [max 0.5 (min 2 (scale + 0.1))], resp.
    [max 0.5 (min 2 (scale + -0.1))]; it is in [[0.5, 2]]; it is the sum
    itself when the sum is in [[0.5, 2)], it is 2 when the sum is 2 or more
    and 0.5 when the sum is below 0.5.  With the canvas mounted and an image
    loaded the canvas size becomes
    [(imageWidth * scale, imageHeight * scale)].  Hence after any non-empty
    sequence of wheel-up events the scale is at most 2, and after any
    non-empty sequence of wheel-down events it is at least 0.5. *)
Theorem C7_wheel (c : option DOMRect.t) (e : WheelEvent) (s : State) :
  (wheel_up e →
     scaleRef (handleWheel c e s)
     = Math_max (1 # 2) (Math_min 2 (scaleRef s + (1 # 10))))
  ∧ (¬ wheel_up e →
     scaleRef (handleWheel c e s)
     = Math_max (1 # 2) (Math_min 2 (scaleRef s + - (1 # 10))))
  ∧ (1 # 2 <= scaleRef (handleWheel c e s)
     ∧ scaleRef (handleWheel c e s) <= 2)
  ∧ (wheel_up e →
     (1 # 2 <= scaleRef s + (1 # 10) → scaleRef s + (1 # 10) < 2 →
      scaleRef (handleWheel c e s) = scaleRef s + (1 # 10))
     ∧ (2 <= scaleRef s + (1 # 10) → scaleRef (handleWheel c e s) = 2)
     ∧ (scaleRef s + (1 # 10) < 1 # 2 →
        scaleRef (handleWheel c e s) = 1 # 2))
  ∧ (wheel_down e →
     (1 # 2 <= scaleRef s + - (1 # 10) → scaleRef s + - (1 # 10) < 2 →
      scaleRef (handleWheel c e s) = scaleRef s + - (1 # 10))
     ∧ (2 <= scaleRef s + - (1 # 10) → scaleRef (handleWheel c e s) = 2)
     ∧ (scaleRef s + - (1 # 10) < 1 # 2 →
        scaleRef (handleWheel c e s) = 1 # 2))
  ∧ (∀ rect img, c = Some rect → image s = Some img →
     canvasSize (handleWheel c e s)
     = Size.mk (Img.width img * scaleRef (handleWheel c e s))
               (Img.height img * scaleRef (handleWheel c e s)))
  ∧ (∀ ws, ws ≠ [] → Forall (λ w, wheel_up w.2) ws →
     scaleRef (handleWheels ws s) <= 2)
  ∧ (∀ ws, ws ≠ [] → Forall (λ w, wheel_down w.2) ws →
     1 # 2 <= scaleRef (handleWheels ws s)).
Proof.
  assert (∀ w : WheelEvent, wheel_down w → ¬ wheel_up w) as Hdown.
  { unfold wheel_down, wheel_up. intros w H1 H2. lra. }
  split; [|split; [|split; [|split; [|split; [|split; [|split]]]]]].
  - intros Hup. by rewrite handleWheel_scale, (wheel_up_test _ Hup).
  - intros Hup. by rewrite handleWheel_scale, (not_wheel_up_test _ Hup).
  - rewrite handleWheel_scale. apply clamp_bounds.
  - intros Hup. rewrite handleWheel_scale, (wheel_up_test _ Hup).
    apply clamp_cases.
  - intros Hdn.
    rewrite handleWheel_scale, (not_wheel_up_test _ (Hdown _ Hdn)).
    apply clamp_cases.
  - intros rect img -> Himg. by apply handleWheel_canvas.
  - intros ws Hne _. by apply handleWheels_bounds.
  - intros ws Hne _. by apply handleWheels_bounds.
Qed.

(** ** Frame *)



(** ** The events of a drag *)

Lemma onload_pieces img w random (s : State) :
  pieces (onload img w random s) = initializePieces random img.
Proof. reflexivity. Qed.

(** Between pointer-down and release nothing changes the held index, the
    offset or the number of tiles. *)
Lemma step_during_drag (ev : Event) (s : State) (i : nat) :
  during_drag ev = true →
  length (pieces s) = (ROWS * COLS)%nat →
  draggedIndex s = Some i → (i < ROWS * COLS)%nat →
  ∃ s', step ev s = Some s'
    ∧ length (pieces s') = (ROWS * COLS)%nat
    ∧ draggedIndex s' = Some i ∧ offsetRef s' = offsetRef s.
Proof.
  intros Hev Hlen Hd Hi.
  destruct ev as [img w r|c e|c e| | |r|c e]; try done; cbn [step].
  - eexists. split; [reflexivity|].
    rewrite onload_pieces, initializePieces_length. by repeat split.
  - destruct (handleMouseMove_frame c e s) as (s' & -> & Hl & Hd' & Ho & _).
    { intros j Hj. rewrite Hd in Hj. injection Hj as <-. by rewrite Hlen. }
    exists s'. split; [done|]. rewrite Hl, Hd', Ho. by repeat split.
  - eexists. split; [reflexivity|]. unfold fixPuzzle.
    destruct (image s) as [img|]; cbn [pieces setPieces draggedIndex offsetRef];
      rewrite ?solvedPieces_length; by repeat split.
  - eexists. split; [reflexivity|]. unfold messUpPuzzle.
    destruct (image s) as [img|]; cbn [pieces setPieces draggedIndex offsetRef];
      rewrite ?initializePieces_length; by repeat split.
  - eexists. split; [reflexivity|].
    destruct (handleWheel_frame c e s) as (-> & _ & -> & ->). by repeat split.
Qed.

Lemma run_during_drag (mid : list Event) (s : State) (i : nat) :
  forallb during_drag mid = true →
  length (pieces s) = (ROWS * COLS)%nat →
  draggedIndex s = Some i → (i < ROWS * COLS)%nat →
  ∃ s', run mid s = Some s'
    ∧ length (pieces s') = (ROWS * COLS)%nat
    ∧ draggedIndex s' = Some i ∧ offsetRef s' = offsetRef s.
Proof.
  revert s. induction mid as [|ev mid IH]; intros s Hmid Hlen Hd Hi.
  - exists s. by repeat split.
  - cbn [forallb] in Hmid. apply andb_true_iff in Hmid as [Hev Hmid].
    destruct (step_during_drag ev s i Hev Hlen Hd Hi)
      as (s1 & Hs1 & Hl1 & Hd1 & Ho1).
    destruct (IH s1 Hmid Hl1 Hd1 Hi) as (s' & Hs' & Hl' & Hd' & Ho').
    exists s'. cbn [run]. rewrite Hs1. cbn [mbind option_bind].
    rewrite Hs', Ho', Ho1. by repeat split.
Qed.

(** C6: a pointer-down that hits tile [i] records
    [dragOffset = downPoint / scale - tile.pos] and holds tile [i]; through
    the events of the drag (pointer-moves, wheel events, and whatever else
    comes before the release) the held index and the offset stay what they
    were, and every pointer-move [e'] sets the position of tile [i] to
    [point / scale - dragOffset], with the scale of that moment, leaving the
    other tiles and the rest of tile [i] alone.  A pointer-move while no
    tile is held changes nothing. *)
Theorem C6_drag (s : State) (rect : DOMRect.t) (e : MouseEvent) (i : nat)
    (p : Piece.t) (mid : list Event) (rect' : DOMRect.t) (e' : MouseEvent) :
  length (pieces s) = (ROWS * COLS)%nat →
  getPieceAt s (clientX e - DOMRect.left rect) (clientY e - DOMRect.top rect)
  = Some i →
  pieces s !! i = Some p →
  forallb during_drag mid = true →
  let dragOffset :=
    Point.mk ((clientX e - DOMRect.left rect) / scaleRef s - Piece.x p)
             ((clientY e - DOMRect.top rect) / scaleRef s - Piece.y p) in
  (∃ s1 s2 p1 p2,
     run (MouseDown (Some rect) e :: mid) s = Some s1
     ∧ draggedIndex s1 = Some i ∧ offsetRef s1 = dragOffset
     ∧ handleMouseMove (Some rect') e' s1 = Some s2
     ∧ draggedIndex s2 = Some i ∧ offsetRef s2 = dragOffset
     ∧ pieces s1 !! i = Some p1 ∧ pieces s2 !! i = Some p2
     ∧ Piece.x p2
       = (clientX e' - DOMRect.left rect') / scaleRef s1 - Point.x dragOffset
     ∧ Piece.y p2
       = (clientY e' - DOMRect.top rect') / scaleRef s1 - Point.y dragOffset
     ∧ same_cut p1 p2
     ∧ ∀ j, j ≠ i → pieces s2 !! j = pieces s1 !! j)
  ∧ (∀ c0 e0 s0, draggedIndex s0 = None → handleMouseMove c0 e0 s0 = Some s0).
Proof.
  intros Hlen Hhit Hp Hmid dragOffset.
  split; [|intros c0 e0 s0; apply handleMouseMove_idle].
  pose proof (getPieceAt_in_range _ _ _ _ Hhit) as Hi. rewrite Hlen in Hi.
  cbn [run step]. rewrite (handleMouseDown_hit rect e s i p Hhit Hp).
  cbn [mbind option_bind]. fold dragOffset.
  destruct (run_during_drag mid
              (setOffset dragOffset (setDraggedIndex (Some i) s)) i Hmid Hlen
              eq_refl Hi) as (s1 & Hs1 & Hl1 & Hd1 & Ho1).
  cbn [offsetRef setOffset] in Ho1.
  destruct (lookup_lt_is_Some_2 (pieces s1) i ltac:(lia)) as [p1 Hp1].
  exists s1. eexists. exists p1. eexists.
  split; [exact Hs1|]. split; [exact Hd1|]. split; [exact Ho1|].
  split; [apply (handleMouseMove_drag rect' e' s1 i p1 Hd1 Hp1)|].
  cbn [pieces setPieces draggedIndex offsetRef].
  split; [exact Hd1|]. split; [exact Ho1|]. split; [exact Hp1|].
  split; [apply list_lookup_insert_eq; lia|].
  rewrite Ho1. cbn [Piece.with_xy Piece.x Piece.y].
  split; [done|]. split; [done|]. split; [by repeat split|].
  intros j Hj. by apply list_lookup_insert_ne.
Qed.

Lemma C6_drag_witness :
  ∃ s s1 s2 p2,
    run solvedAtScale2 initialState = Some s
    ∧ run (MouseDown atOrigin (pointer 210 10)
           :: [Wheel atOrigin {| deltaY := 1 |};
               MouseMove atOrigin (pointer 300 50)]) s = Some s1
    ∧ handleMouseMove atOrigin (pointer 200 10) s1 = Some s2
    ∧ pieces s2 !! 4%nat = Some p2
    ∧ Piece.x p2
      = (200 - 0) / scaleRef s1
        - ((210 - 0) / scaleRef s - Piece.x (solvedCell exampleImage 0 4 4)).
Proof.
  pose (s := fixPuzzle (onload exampleImage 2000 (λ _, 0) initialState)).
  pose (p := solvedCell exampleImage 0 4 4).
  assert (length (pieces s) = (ROWS * COLS)%nat) as Hlen.
  { apply solvedPieces_length. }
  assert (getPieceAt s (clientX (pointer 210 10) - DOMRect.left (DOMRect.mk 0 0))
            (clientY (pointer 210 10) - DOMRect.top (DOMRect.mk 0 0))
          = Some 4%nat) as Hhit.
  { vm_compute. reflexivity. }
  assert (pieces s !! 4%nat = Some p) as Hp.
  { vm_compute. reflexivity. }
  destruct (C6_drag s (DOMRect.mk 0 0) (pointer 210 10) 4 p
              [Wheel atOrigin {| deltaY := 1 |};
               MouseMove atOrigin (pointer 300 50)]
              (DOMRect.mk 0 0) (pointer 200 10) Hlen Hhit Hp eq_refl)
    as ((s1 & s2 & p1 & p2 & Hrun & _ & _ & Hmove & _ & _ & _ & Hp2 & Hx & _)
        & _).
  exists s, s1, s2, p2. split; [reflexivity|].
  split; [exact Hrun|]. split; [exact Hmove|]. split; [exact Hp2|].
  exact Hx.
Defined.

(** ** The grid invariant *)

Lemma onload_grid_inv img w random (s : State) :
  grid_inv (onload img w random s).
Proof.
  exists img. split; [reflexivity|].
  rewrite onload_pieces.
  split; [apply initializePieces_length|apply initializePieces_cut].
Qed.

Lemma step_image (ev : Event) (s s' : State) :
  is_load ev = false → step ev s = Some s' → image s' = image s.
Proof.
  destruct ev as [img w r|c e|c e| | |r|c e]; try done; intros _;
    cbn [step].
  - unfold handleMouseDown.
    destruct c as [rect|]; [|by intros [= <-]]. cbv zeta.
    destruct (getPieceAt s _ _) as [i|]; [|by intros [= <-]].
    destruct (pieces s !! i); cbn [mbind option_bind];
      [by intros [= <-]|done].
  - unfold handleMouseMove.
    destruct (draggedIndex s) as [i|]; [|by intros [= <-]].
    destruct c as [rect|]; [|by intros [= <-]]. cbv zeta.
    destruct (pieces s !! i); cbn [mbind option_bind];
      [by intros [= <-]|done].
  - unfold handleMouseUp.
    destruct (draggedIndex s) as [i|]; [|by intros [= <-]].
    destruct (pieces s !! i); cbn [mbind option_bind]; [|done].
    cbv zeta. destruct (sqrt_ltb _ _); by intros [= <-].
  - intros [= <-]. unfold fixPuzzle.
    by destruct (image s) eqn:Himg; cbn [image setPieces].
  - intros [= <-]. unfold messUpPuzzle.
    by destruct (image s) eqn:Himg; cbn [image setPieces].
  - intros [= <-]. apply handleWheel_frame.
Qed.

Lemma handleMouseMove_length (c : option DOMRect.t) (e : MouseEvent)
    (s s' : State) :
  handleMouseMove c e s = Some s' → length (pieces s') = length (pieces s).
Proof.
  unfold handleMouseMove.
  destruct (draggedIndex s) as [i|]; [|by intros [= <-]].
  destruct c as [rect|]; [|by intros [= <-]]. cbv zeta.
  destruct (pieces s !! i); cbn [mbind option_bind]; [|done].
  intros [= <-]. cbn [pieces setPieces]. apply length_insert.
Qed.

Lemma handleMouseUp_length (s s' : State) :
  handleMouseUp s = Some s' → length (pieces s') = length (pieces s).
Proof.
  unfold handleMouseUp.
  destruct (draggedIndex s) as [i|]; [|by intros [= <-]].
  destruct (pieces s !! i); cbn [mbind option_bind]; [|done].
  cbv zeta. destruct (sqrt_ltb _ _); intros [= <-];
    cbn [pieces setPieces setDraggedIndex]; by rewrite ?length_insert.
Qed.

(** Every handler keeps the grid. *)
Lemma step_grid_inv (ev : Event) (s s' : State) :
  grid_inv s → step ev s = Some s' → grid_inv s'.
Proof.
  intros (img & Himg & Hlen & Hcut) Hstep.
  destruct ev as [img' w r|c e|c e| | |r|c e]; cbn [step] in Hstep.
  - injection Hstep as <-. apply onload_grid_inv.
  - exists img. rewrite (step_image (MouseDown c e) s s' eq_refl Hstep).
    rewrite (handleMouseDown_pieces c e s s' Hstep). by split.
  - exists img. rewrite (step_image (MouseMove c e) s s' eq_refl Hstep).
    split; [done|]. split.
    + by rewrite (handleMouseMove_length c e s s' Hstep).
    + intros j q. by apply (handleMouseMove_cut c e s s' img j q).
  - exists img. rewrite (step_image MouseUp s s' eq_refl Hstep).
    split; [done|]. split.
    + by rewrite (handleMouseUp_length s s' Hstep).
    + intros j q. by apply (handleMouseUp_cut s s' img j q).
  - injection Hstep as <-. exists img. unfold fixPuzzle. rewrite Himg.
    cbn [image pieces setPieces]. split; [done|].
    split; [apply solvedPieces_length|apply solvedPieces_cut].
  - injection Hstep as <-. exists img. unfold messUpPuzzle. rewrite Himg.
    cbn [image pieces setPieces]. split; [done|].
    split; [apply initializePieces_length|apply initializePieces_cut].
  - injection Hstep as <-. exists img.
    destruct (handleWheel_frame c e s) as (-> & -> & _). by split.
Qed.

(** From a state with the grid built and a held index within the array,
    every handler returns, and the held index stays within the array. *)
Lemma step_total (ev : Event) (s : State) :
  grid_inv s → drag_in_range s →
  ∃ s', step ev s = Some s' ∧ drag_in_range s'.
Proof.
  intros Hinv Hr.
  assert (∀ s', step ev s = Some s' → length (pieces s') = length (pieces s))
    as Hlen.
  { intros s' Hs'. destruct (step_grid_inv ev s s' Hinv Hs') as (_ & _ & -> & _).
    destruct Hinv as (_ & _ & -> & _). done. }
  destruct ev as [img w r|c e|c e| | |r|c e]; cbn [step] in *.
  - eexists. split; [reflexivity|]. intros i Hi.
    rewrite (Hlen _ eq_refl). apply Hr. exact Hi.
  - destruct (handleMouseDown_frame c e s Hr) as (s' & Hs' & _ & _ & _ & _ & H).
    by exists s'.
  - destruct (handleMouseMove_frame c e s Hr) as (s' & Hs' & Hl & Hd & _).
    exists s'. split; [done|]. intros i Hi. rewrite Hl. apply Hr. congruence.
  - destruct (handleMouseUp_frame s Hr) as (s' & Hs' & Hd & _).
    exists s'. split; [done|]. intros i Hi. congruence.
  - eexists. split; [reflexivity|]. intros i Hi.
    rewrite (Hlen _ eq_refl). apply Hr.
    revert Hi. unfold fixPuzzle. by destruct (image s).
  - eexists. split; [reflexivity|]. intros i Hi.
    rewrite (Hlen _ eq_refl). apply Hr.
    revert Hi. unfold messUpPuzzle. by destruct (image s).
  - eexists. split; [reflexivity|]. intros i Hi.
    destruct (handleWheel_frame c e s) as (Hp & _ & Hd & _).
    rewrite Hp. apply Hr. congruence.
Qed.

Lemma run_grid_inv (evs : list Event) (s : State) :
  grid_inv s → drag_in_range s →
  ∃ s', run evs s = Some s' ∧ grid_inv s' ∧ drag_in_range s'.
Proof.
  revert s. induction evs as [|ev evs IH]; intros s Hinv Hr.
  - by exists s.
  - destruct (step_total ev s Hinv Hr) as (s1 & Hs1 & Hr1).
    destruct (IH s1 (step_grid_inv ev s s1 Hinv Hs1) Hr1) as (s' & Hs' & H).
    exists s'. cbn [run]. rewrite Hs1. by split.
Qed.

(** Before the first load there is no tile and nothing can be held. *)
Lemma step_blank (ev : Event) (s : State) :
  blank s → is_load ev = false → ∃ s', step ev s = Some s' ∧ blank s'.
Proof.
  intros (Hp & Himg & Hd) Hev.
  destruct ev as [img w r|c e|c e| | |r|c e]; try done; cbn [step].
  - exists s. split; [|done]. unfold handleMouseDown.
    destruct c as [rect|]; [|done]. cbv zeta. unfold getPieceAt.
    by rewrite Hp.
  - exists s. by rewrite handleMouseMove_idle.
  - exists s. by rewrite handleMouseUp_idle.
  - exists s. unfold fixPuzzle. by rewrite Himg.
  - exists s. unfold messUpPuzzle. by rewrite Himg.
  - eexists. split; [reflexivity|]. unfold blank.
    destruct (handleWheel_frame c e s) as (-> & -> & -> & _). done.
Qed.

Lemma run_blank (evs : list Event) (s : State) :
  blank s → Forall (λ ev, is_load ev = false) evs →
  ∃ s', run evs s = Some s' ∧ blank s'.
Proof.
  intros Hb Hevs. revert s Hb.
  induction Hevs as [|ev evs Hev _ IH]; intros s Hb.
  - by exists s.
  - destruct (step_blank ev s Hb Hev) as (s1 & Hs1 & Hb1).
    destruct (IH s1 Hb1) as (s' & Hs' & Hb').
    exists s'. cbn [run]. rewrite Hs1. by split.
Qed.

Lemma run_app (evs evs' : list Event) (s : State) :
  run (evs ++ evs') s = run evs s ≫= run evs'.
Proof.
  revert s. induction evs as [|ev evs IH]; intros s; [done|].
  cbn [run app]. destruct (step ev s) as [s1|]; [|done]. apply IH.
Qed.

Lemma cut_of_same (img : Img.t) (i : nat) (p q : Piece.t) :
  cut_of img i p → cut_of img i q → same_cut p q.
Proof.
  intros (Hsx & Hsy & Hw & Hh) (Hsx' & Hsy' & Hw' & Hh').
  unfold same_cut. rewrite Hsx, Hsy, Hsx', Hsy', Hw, Hh, Hw', Hh'. done.
Qed.

(** C10: from the first grid build onward — after any events that precede
    the first load, the load, and any events after it — the handlers have
    all returned and the state has [ROWS * COLS = 1000] tiles, the tile of
    index [i] having [sx = (i mod COLS) * width], [sy = (i / COLS) * height],
    [width = imageWidth / COLS] and [height = imageHeight / ROWS]; every
    further event returns and keeps it so, and unless it loads another
    image it leaves the source rectangle and the dimensions of every tile
    untouched. *)
Theorem C10_grid_invariant (before : list Event) (img : Img.t)
    (innerWidth : Q) (random : nat → Q) (after : list Event) :
  Forall (λ ev, is_load ev = false) before →
  ∃ s, run (before ++ ImgLoad img innerWidth random :: after) initialState
       = Some s
    ∧ (ROWS * COLS)%nat = 1000%nat
    ∧ grid_inv s
    ∧ ∀ ev, ∃ s', step ev s = Some s' ∧ grid_inv s'
        ∧ (is_load ev = false →
           ∀ i p, pieces s !! i = Some p →
             ∃ p', pieces s' !! i = Some p' ∧ same_cut p p').
Proof.
  intros Hbefore.
  destruct (run_blank before initialState) as (s0 & Hs0 & _ & _ & Hd0);
    [done|done|].
  assert (drag_in_range (onload img innerWidth random s0)) as Hr1.
  { intros i Hi. cbn in Hi. congruence. }
  destruct (run_grid_inv after _ (onload_grid_inv img innerWidth random s0) Hr1)
    as (s & Hs & Hinv & Hr).
  exists s. split.
  { rewrite run_app, Hs0. cbn [mbind option_bind run step]. exact Hs. }
  split; [reflexivity|]. split; [exact Hinv|].
  intros ev. destruct (step_total ev s Hinv Hr) as (s' & Hs' & _).
  pose proof (step_grid_inv ev s s' Hinv Hs') as Hinv'.
  exists s'. split; [done|]. split; [done|].
  intros Hev i p Hp.
  destruct Hinv as (im & Him & Hlen & Hcut).
  destruct Hinv' as (im' & Him' & Hlen' & Hcut').
  rewrite (step_image ev s s' Hev Hs'), Him in Him'. injection Him' as <-.
  destruct (lookup_lt_is_Some_2 (pieces s') i) as [p' Hp'].
  { rewrite Hlen', <- Hlen. by eapply lookup_lt_Some. }
  exists p'. split; [done|].
  by apply (cut_of_same im i); [apply Hcut|apply Hcut'].
Qed.

Lemma C10_grid_invariant_witness :
  ∃ s, run ([Wheel None {| deltaY := -1 |}; MouseDown atOrigin (pointer 1 1)]
            ++ ImgLoad exampleImage 2000 (λ _, 0) :: [FixClick; MouseUp])
         initialState = Some s
    ∧ grid_inv s.
Proof.
  destruct (C10_grid_invariant
              [Wheel None {| deltaY := -1 |}; MouseDown atOrigin (pointer 1 1)]
              exampleImage 2000 (λ _, 0) [FixClick; MouseUp])
    as (s & Hs & _ & Hinv & _).
  { repeat constructor. }
  exists s. split; [exact Hs|exact Hinv].
Defined.

(** ** Release and snap *)

(** The comparison [Math.sqrt a < t] of the model is the comparison of the
    real square root. *)
Lemma sqrt_ltb_real (a t : Q) :
  0 <= a → sqrt_ltb a t = true ↔ (sqrt (Q2R a) < Q2R t)%R.
Proof.
  intros Ha. unfold sqrt_ltb.
  apply Qle_bool_iff in Ha as Ha'. rewrite Ha'. cbn [andb].
  apply Qle_Rle in Ha. rewrite RMicromega.Q2R_0 in Ha.
  rewrite andb_true_iff, !negb_true_iff. split.
  - intros [Ht Hlt]. apply Qle_bool_false in Ht, Hlt.
    apply Qlt_Rlt in Ht, Hlt. rewrite RMicromega.Q2R_0 in Ht.
    rewrite Q2R_mult in Hlt.
    rewrite <- (sqrt_square (Q2R t)) by Lra.lra.
    apply sqrt_lt_1_alt. split; [exact Ha|exact Hlt].
  - intros Hlt. pose proof (sqrt_pos (Q2R a)) as Hpos.
    assert (0 < Q2R t)%R as Ht by Lra.lra.
    assert (Q2R a < Q2R t * Q2R t)%R as Hsq.
    { rewrite <- (sqrt_sqrt (Q2R a)) by exact Ha.
      apply Rmult_le_0_lt_compat; assumption. }
    split.
    + destruct (Qle_bool t 0) eqn:Hc; [|done].
      apply Qle_bool_iff, Qle_Rle in Hc.
      rewrite RMicromega.Q2R_0 in Hc. Lra.lra.
    + destruct (Qle_bool (t * t) a) eqn:Hc; [|done].
      apply Qle_bool_iff, Qle_Rle in Hc. rewrite Q2R_mult in Hc. Lra.lra.
Qed.

(** What the release does to the held tile: when the test of line 148
    succeeds the tile is put at [(sx / scale, sy / scale)], otherwise no
    tile is written; in both cases nothing is held afterwards. *)
Lemma handleMouseUp_spec (s : State) (i : nat) (p : Piece.t) :
  draggedIndex s = Some i → pieces s !! i = Some p →
  ∃ s', handleMouseUp s = Some s' ∧ draggedIndex s' = None
    ∧ (closeEnough (scaleRef s) p = true →
       pieces s'
       = <[i := Piece.with_xy p (Piece.sx p / scaleRef s)
                 (Piece.sy p / scaleRef s)]> (pieces s))
    ∧ (closeEnough (scaleRef s) p = false → pieces s' = pieces s).
Proof.
  intros Hd Hp. destruct (closeEnough (scaleRef s) p) eqn:Hc.
  - rewrite (handleMouseUp_snap s i p Hd Hp Hc). eexists.
    split; [reflexivity|]. by repeat split.
  - rewrite (handleMouseUp_no_snap s i p Hd Hp Hc). eexists.
    split; [reflexivity|]. by repeat split.
Qed.

Lemma sqrt_ltb_comp (a a' t : Q) : a == a' → sqrt_ltb a t = sqrt_ltb a' t.
Proof. intros H. unfold sqrt_ltb. by rewrite H. Qed.

(** At scale 1 the test of the release is the distance to [(sx, sy)]. *)
Lemma closeEnough_scale_1 (scale : Q) (p : Piece.t) :
  scale == 1 → closeEnough scale p = nearSolvedPosition p.
Proof.
  intros H. unfold closeEnough, nearSolvedPosition. apply sqrt_ltb_comp.
  unfold Math_pow. rewrite H.
  assert (∀ a : Q, a / 1 == a) as Hdiv by (intros a; field).
  by rewrite !Hdiv.
Qed.

(** At scale 1 a tile released within the threshold of [(sx, sy)] is put
    there, and a tile released farther away is left where it is. *)
Lemma handleMouseUp_scale_1 (s : State) (i : nat) (p : Piece.t) :
  scaleRef s == 1 →
  draggedIndex s = Some i → pieces s !! i = Some p →
  ∃ s', handleMouseUp s = Some s' ∧ draggedIndex s' = None
    ∧ (nearSolvedPosition p = true →
       ∃ p', pieces s' !! i = Some p'
         ∧ Piece.x p' == Piece.sx p ∧ Piece.y p' == Piece.sy p)
    ∧ (nearSolvedPosition p = false → pieces s' = pieces s).
Proof.
  intros Hscale Hd Hp.
  destruct (handleMouseUp_spec s i p Hd Hp) as (s' & Hs' & Hidle & Hsnap & Hno).
  rewrite (closeEnough_scale_1 _ p Hscale) in Hsnap, Hno.
  exists s'. split; [done|]. split; [done|]. split; [|done].
  intros Hnear. rewrite (Hsnap Hnear). eexists.
  split; [apply list_lookup_insert_eq; by eapply lookup_lt_Some|].
  cbn [Piece.with_xy Piece.x Piece.y]. rewrite Hscale. split; field.
Qed.

(** C1 does not hold at scale 2 (a tile released within the threshold of
    its solved position [(sx, sy)] should be put exactly there): the image
    is 1000 x 625 and shown at scale 2, the puzzle is solved, and the tile
    of row 0, column 4 (solved position [(100, 0)]) is dragged to
    [(95, 0)], at distance 5 from its solved position.  The release
    compares the position with [(sx / scale, sy / scale) = (50, 0)]
    instead, finds it 45 away, and leaves the tile at [(95, 0)]. *)
Theorem C1_release_near_home_does_not_snap :
  ∃ s p s' p',
    run dragNearHome initialState = Some s
    ∧ scaleRef s == 2 ∧ draggedIndex s = Some 4%nat
    ∧ pieces s !! 4%nat = Some p
    ∧ (Piece.sx p == 100 ∧ Piece.sy p == 0)
    ∧ (Piece.x p == 95 ∧ Piece.y p == 0)
    ∧ nearSolvedPosition p = true
    ∧ closeEnough (scaleRef s) p = false
    ∧ handleMouseUp s = Some s'
    ∧ pieces s' !! 4%nat = Some p'
    ∧ Piece.x p' == 95 ∧ Piece.y p' == 0
    ∧ ¬ Piece.x p' == Piece.sx p'.
Proof.
  pose (s := default initialState (run dragNearHome initialState)).
  pose (p := default (Piece.mk 0 0 0 0 0 0) (pieces s !! 4%nat)).
  pose (s' := default initialState (handleMouseUp s)).
  pose (p' := default (Piece.mk 0 0 0 0 0 0) (pieces s' !! 4%nat)).
  exists s, p, s', p'. subst s p s' p'.
  repeat match goal with |- _ ∧ _ => split end;
    try (vm_compute; reflexivity).
  vm_compute. discriminate.
Qed.

(** C9 does not hold at scale 2 (a tile released at or beyond the
    threshold from its solved position should stay where it is; the
    release always ends the drag): in the same setting the tile is dragged
    to [(45, 0)], at distance 55 from its solved position [(100, 0)].  The
    release compares the position with [(sx / scale, sy / scale) = (50, 0)],
    finds it 5 away, and moves the tile to [(50, 0)]; nothing is held
    afterwards. *)
Theorem C9_release_far_from_home_moves_tile :
  ∃ s p s' p',
    run dragFarFromHome initialState = Some s
    ∧ scaleRef s == 2 ∧ draggedIndex s = Some 4%nat
    ∧ pieces s !! 4%nat = Some p
    ∧ (Piece.sx p == 100 ∧ Piece.sy p == 0)
    ∧ (Piece.x p == 45 ∧ Piece.y p == 0)
    ∧ nearSolvedPosition p = false
    ∧ closeEnough (scaleRef s) p = true
    ∧ handleMouseUp s = Some s'
    ∧ draggedIndex s' = None
    ∧ pieces s' !! 4%nat = Some p'
    ∧ Piece.x p' == 50 ∧ Piece.y p' == 0
    ∧ ¬ Piece.x p' == Piece.x p.
Proof.
  pose (s := default initialState (run dragFarFromHome initialState)).
  pose (p := default (Piece.mk 0 0 0 0 0 0) (pieces s !! 4%nat)).
  pose (s' := default initialState (handleMouseUp s)).
  pose (p' := default (Piece.mk 0 0 0 0 0 0) (pieces s' !! 4%nat)).
  exists s, p, s', p'. subst s p s' p'.
  repeat match goal with |- _ ∧ _ => split end;
    try (vm_compute; reflexivity).
  vm_compute. discriminate.
Qed.

(** * Further properties of the component *)

(** ** Runs from the initial state *)

Lemma blank_initialState : blank initialState.
Proof. by repeat split. Qed.

(** No sequence of events makes a handler read past the end of the array:
    from the initial state every run returns; the state it ends in has
    either no tile, no image and nothing held, or the full grid of the
    loaded image; and the held index, if any, is an index of the array. *)
Theorem run_from_initialState (evs : list Event) :
  ∃ s, run evs initialState = Some s
    ∧ (blank s ∨ grid_inv s) ∧ drag_in_range s.
Proof.
  assert (∀ s, blank s → ∃ s', run evs s = Some s'
            ∧ (blank s' ∨ grid_inv s') ∧ drag_in_range s') as H.
  { induction evs as [|ev evs IH]; intros s Hb.
    - exists s. split; [done|]. split; [by left|].
      intros i Hi. destruct Hb as (_ & _ & Hd). congruence.
    - destruct (is_load ev) eqn:Hev.
      + destruct ev as [img w r| | | | | | ]; try done. cbn [run step].
        cbn [mbind option_bind].
        destruct (run_grid_inv evs (onload img w r s)) as (s' & Hs' & Hi & Hr).
        { apply onload_grid_inv. }
        { intros i Hi. destruct Hb as (_ & _ & Hd). cbn in Hi. congruence. }
        exists s'. split; [done|]. split; [by right|done].
      + destruct (step_blank ev s Hb Hev) as (s1 & Hs1 & Hb1).
        destruct (IH s1 Hb1) as (s' & Hs' & H').
        exists s'. cbn [run]. rewrite Hs1. by split. }
  apply H, blank_initialState.
Qed.



(** ** Drawing *)

Lemma draw_lookup (cv : Canvas.t) (s : State) (img : Img.t) :
  image s = Some img →
  ∃ calls, draw (Some cv) true s = Some calls
    ∧ length calls = S (length (pieces s))
    ∧ calls !! 0%nat
      = Some (clearRect 0 0 (Canvas.width cv) (Canvas.height cv))
    ∧ ∀ i, calls !! S i
        = (λ p, drawImage (Piece.sx p) (Piece.sy p)
                  (Piece.width p) (Piece.height p)
                  (Piece.x p * scaleRef s) (Piece.y p * scaleRef s)
                  (Piece.width p * scaleRef s) (Piece.height p * scaleRef s))
          <$> pieces s !! i.
Proof.
  intros Himg. unfold draw. rewrite Himg. eexists. split; [reflexivity|].
  split; [by cbn [length]; rewrite length_map|]. split; [done|].
  intros i. cbn [lookup list_lookup]. apply list_lookup_fmap.
Qed.


(** The tile picked by the hit test is the one drawn on top at that point:
    [getPieceAt] returns the index of the last [drawImage] call whose
    destination rectangle holds the point, and nothing when no call's
    rectangle holds it. *)
Theorem hit_test_picks_topmost_drawn (cv : Canvas.t) (s : State)
    (img : Img.t) (x y : Q) :
  image s = Some img →
  ∃ calls, draw (Some cv) true s = Some calls
    ∧ match getPieceAt s x y with
      | Some i =>
          (∃ c, calls !! S i = Some c ∧ dest_contains c x y)
          ∧ ∀ j c, (i < j)%nat → calls !! S j = Some c → ¬ dest_contains c x y
      | None => ∀ j c, calls !! j = Some c → ¬ dest_contains c x y
      end.
Proof.
  intros Himg.
  destruct (draw_lookup cv s img Himg) as (calls & Hd & Hl & H0 & Hi).
  exists calls. split; [done|].
  assert (∀ j c, calls !! S j = Some c →
            ∃ q, pieces s !! j = Some q
              ∧ (dest_contains c x y ↔ in_scaled_box (scaleRef s) q x y))
    as Hcall.
  { intros j c Hc. rewrite Hi in Hc.
    destruct (pieces s !! j) as [q|]; [|done]. injection Hc as <-.
    exists q. by split. }
  pose proof (getPieceAt_from_spec (pieces s) (scaleRef s) x y
                (length (pieces s)) ltac:(lia)) as Hs.
  unfold getPieceAt. destruct (getPieceAt_from _ _ _ _ _) as [i|].
  - destruct Hs as (Hlt & (p & Hp & Hc) & Habove). split.
    + eexists. split; [by rewrite Hi, Hp|]. by apply contains_spec.
    + intros j c Hj Hcj. destruct (Hcall j c Hcj) as (q & Hq & ->).
      apply contains_false. apply (Habove j q); [|done].
      split; [done|]. by eapply lookup_lt_Some.
  - intros [|j] c Hcj.
    + rewrite H0 in Hcj. injection Hcj as <-. by intros [].
    + destruct (Hcall j c Hcj) as (q & Hq & ->).
      apply contains_false. apply (Hs j q); [|done]. by eapply lookup_lt_Some.
Qed.

Lemma hit_test_picks_topmost_drawn_witness :
  ∃ calls c,
    draw (Some (Canvas.mk 2000 1250)) true
      (onload exampleImage 2000 (λ _, 0) initialState) = Some calls
    ∧ getPieceAt (onload exampleImage 2000 (λ _, 0) initialState) 10 10
      = Some 999%nat
    ∧ calls !! 1000%nat = Some c ∧ dest_contains c 10 10.
Proof.
  assert (getPieceAt (onload exampleImage 2000 (λ _, 0) initialState) 10 10
          = Some 999%nat) as Hhit.
  { vm_compute. reflexivity. }
  destruct (hit_test_picks_topmost_drawn (Canvas.mk 2000 1250)
              (onload exampleImage 2000 (λ _, 0) initialState)
              exampleImage 10 10 eq_refl) as (calls & Hd & Htop).
  rewrite Hhit in Htop. destruct Htop as ((c & Hc & Hin) & _).
  exists calls, c. split; [exact Hd|]. split; [exact Hhit|].
  split; [exact Hc|exact Hin].
Defined.

(** The solved puzzle is drawn as the image itself, scaled: after
    [fixPuzzle] the tile of row [row] and column [col] is copied from its
    source rectangle [(col * w, row * h, w, h)], with [w = imageWidth / COLS]
    and [h = imageHeight / ROWS], to the rectangle whose corner and size
    are the same four numbers, each times the scale. *)
Theorem solved_puzzle_drawn_in_place (cv : Canvas.t) (s : State)
    (img : Img.t) (row col : nat) :
  image s = Some img →
  (row < ROWS)%nat → (col < COLS)%nat →
  ∃ calls sx sy w h,
    draw (Some cv) true (fixPuzzle s) = Some calls
    ∧ length calls = S (ROWS * COLS)
    ∧ calls !! S (row * COLS + col)
      = Some (drawImage sx sy w h
                (sx * scaleRef s) (sy * scaleRef s)
                (w * scaleRef s) (h * scaleRef s))
    ∧ sx = num col * w ∧ sy = num row * h
    ∧ w = Img.width img / num COLS ∧ h = Img.height img / num ROWS.
Proof.
  intros Himg Hrow Hcol.
  assert (image (fixPuzzle s) = Some img) as Himg'.
  { unfold fixPuzzle. by rewrite Himg. }
  assert (scaleRef (fixPuzzle s) = scaleRef s) as Hsc.
  { unfold fixPuzzle. by rewrite Himg. }
  destruct (draw_lookup cv (fixPuzzle s) img Himg')
    as (calls & Hd & Hl & _ & Hi).
  exists calls, (num col * (Img.width img / num COLS)),
    (num row * (Img.height img / num ROWS)),
    (Img.width img / num COLS), (Img.height img / num ROWS).
  split; [done|]. split.
  { by rewrite Hl, (fixPuzzle_pieces s img Himg), solvedPieces_length. }
  split.
  { rewrite Hi, (fixPuzzle_pieces s img Himg), solvedPieces_grid.
    rewrite (grid_lookup (solvedCell img) ROWS COLS row col Hrow Hcol).
    by rewrite Hsc. }
  by repeat split.
Qed.

Lemma solved_puzzle_drawn_in_place_witness :
  ∃ calls sx sy w h,
    draw (Some (Canvas.mk 2000 1250)) true
      (fixPuzzle (onload exampleImage 2000 (λ _, 1 # 2) initialState))
    = Some calls
    ∧ calls !! S (24 * COLS + 39)
      = Some (drawImage sx sy w h
                (sx * (2000 / 1000)) (sy * (2000 / 1000))
                (w * (2000 / 1000)) (h * (2000 / 1000)))
    ∧ sx = num 39 * w ∧ sy = num 24 * h.
Proof.
  destruct (solved_puzzle_drawn_in_place (Canvas.mk 2000 1250)
              (onload exampleImage 2000 (λ _, 1 # 2) initialState)
              exampleImage 24 39)
    as (calls & sx & sy & w & h & Hd & _ & Hc & Hsx & Hsy & _).
  - reflexivity.
  - unfold ROWS. lia.
  - unfold COLS. lia.
  - exists calls, sx, sy, w, h. split; [exact Hd|]. split; [exact Hc|].
    split; [exact Hsx|exact Hsy].
Defined.






(** ** The canvas follows the scale *)

Lemma step_canvas_fits (ev : Event) (s s' : State) :
  canvas_fits s → wheel_on_canvas ev = true → step ev s = Some s' →
  canvas_fits s'.
Proof.
  intros (img & Himg & Hcv) Hev.
  destruct ev as [img' w r|c e|c e| | |r|c e]; cbn [step].
  - intros [= <-]. by exists img'.
  - unfold handleMouseDown.
    destruct c as [rect|]; [|by intros [= <-]; exists img]. cbv zeta.
    destruct (getPieceAt s _ _) as [i|]; [|by intros [= <-]; exists img].
    destruct (pieces s !! i); cbn [mbind option_bind]; [|done].
    intros [= <-]. by exists img.
  - unfold handleMouseMove.
    destruct (draggedIndex s) as [i|]; [|by intros [= <-]; exists img].
    destruct c as [rect|]; [|by intros [= <-]; exists img]. cbv zeta.
    destruct (pieces s !! i); cbn [mbind option_bind]; [|done].
    intros [= <-]. by exists img.
  - unfold handleMouseUp.
    destruct (draggedIndex s) as [i|]; [|by intros [= <-]; exists img].
    destruct (pieces s !! i); cbn [mbind option_bind]; [|done].
    cbv zeta. destruct (sqrt_ltb _ _); intros [= <-]; by exists img.
  - intros [= <-]. exists img. unfold fixPuzzle. by rewrite Himg.
  - intros [= <-]. exists img. unfold messUpPuzzle. by rewrite Himg.
  - destruct c as [rect|]; [|done]. intros Hs.
    assert (s' = handleWheel (Some rect) e s) as -> by congruence.
    exists img.
    destruct (handleWheel_frame (Some rect) e s) as (_ & Hi & _).
    split; [by rewrite Hi|]. by apply handleWheel_canvas.
Qed.

(** From the first image load onward, and as long as the wheel events come
    through the mounted canvas, the canvas size is the size of the loaded
    image times the current scale. *)
Theorem canvas_follows_scale (before : list Event) (img : Img.t)
    (innerWidth : Q) (random : nat → Q) (after : list Event) :
  Forall (λ ev, is_load ev = false) before →
  Forall (λ ev, wheel_on_canvas ev = true) after →
  ∃ s, run (before ++ ImgLoad img innerWidth random :: after) initialState
       = Some s
    ∧ canvas_fits s.
Proof.
  intros Hbefore Hafter.
  destruct (run_blank before initialState) as (s0 & Hs0 & _ & _ & Hd0);
    [apply blank_initialState|done|].
  assert (∀ s1, grid_inv s1 → drag_in_range s1 → canvas_fits s1 →
            ∃ s, run after s1 = Some s ∧ canvas_fits s) as H.
  { induction Hafter as [|ev after Hev _ IH]; intros s1 Hinv Hr Hfit.
    - by exists s1.
    - destruct (step_total ev s1 Hinv Hr) as (s2 & Hs2 & Hr2).
      destruct (IH s2 (step_grid_inv ev s1 s2 Hinv Hs2) Hr2
                  (step_canvas_fits ev s1 s2 Hfit Hev Hs2)) as (s & Hs & Hf).
      exists s. cbn [run]. rewrite Hs2. by split. }
  destruct (H (onload img innerWidth random s0)) as (s & Hs & Hfit).
  - apply onload_grid_inv.
  - intros i Hi. cbn in Hi. congruence.
  - by exists img.
  - exists s. split; [|done].
    rewrite run_app, Hs0. cbn [mbind option_bind run step]. exact Hs.
Qed.

Lemma canvas_follows_scale_witness :
  ∃ s, run ([MouseUp]
            ++ ImgLoad exampleImage 2000 (λ _, 0)
               :: [Wheel atOrigin {| deltaY := 1 |}; FixClick])
         initialState = Some s
    ∧ canvas_fits s.
Proof.
  apply (canvas_follows_scale [MouseUp] exampleImage 2000 (λ _, 0)
           [Wheel atOrigin {| deltaY := 1 |}; FixClick]);
    repeat constructor.
Defined.

(** ** Release, continued *)

(** A release ends the drag and touches at most the held tile: it returns
    whenever the held index is in the array, nothing is held afterwards,
    every tile other than the held one is as before, the held tile keeps
    its source rectangle and its dimensions, and the scale, the offset, the
    image and the canvas size are as before.  A second release, or a
    pointer-move after the release, changes nothing. *)
Theorem release_ends_drag (s : State) :
  drag_in_range s →
  ∃ s', handleMouseUp s = Some s'
    ∧ draggedIndex s' = None
    ∧ length (pieces s') = length (pieces s)
    ∧ (∀ j, draggedIndex s ≠ Some j → pieces s' !! j = pieces s !! j)
    ∧ (∀ j p p', pieces s !! j = Some p → pieces s' !! j = Some p' →
         same_cut p p')
    ∧ scaleRef s' = scaleRef s ∧ offsetRef s' = offsetRef s
    ∧ image s' = image s ∧ canvasSize s' = canvasSize s
    ∧ handleMouseUp s' = Some s'
    ∧ ∀ c e, handleMouseMove c e s' = Some s'.
Proof.
  intros Hr.
  destruct (handleMouseUp_frame s Hr)
    as (s' & Hs' & Hidle & Hlen & Ho & Hi & Hsc & Hcv).
  exists s'. split; [done|]. split; [done|]. split; [done|].
  assert ((∀ j, draggedIndex s ≠ Some j → pieces s' !! j = pieces s !! j)
          ∧ (∀ j p p', pieces s !! j = Some p → pieces s' !! j = Some p' →
               same_cut p p')) as [Hother Hcut].
  { destruct (draggedIndex s) as [i|] eqn:Hd.
    - destruct (lookup_lt_is_Some_2 _ _ (Hr i Hd)) as [p Hp].
      destruct (handleMouseUp_spec s i p Hd Hp) as (s2 & Hs2 & _ & Hsnap & Hno).
      rewrite Hs' in Hs2. injection Hs2 as <-.
      destruct (closeEnough (scaleRef s) p).
      + rewrite (Hsnap eq_refl). split.
        * intros j Hj. apply list_lookup_insert_ne. congruence.
        * intros j q q' Hq. destruct (decide (j = i)) as [->|Hne].
          -- rewrite list_lookup_insert_eq by (by eapply lookup_lt_Some).
             intros [= <-]. rewrite Hp in Hq. injection Hq as <-.
             by repeat split.
          -- rewrite list_lookup_insert_ne by done. intros Hq'.
             rewrite Hq in Hq'. injection Hq' as <-. by repeat split.
      + rewrite (Hno eq_refl). split; [done|].
        intros j q q' Hq Hq'. rewrite Hq in Hq'. injection Hq' as <-.
        by repeat split.
    - rewrite handleMouseUp_idle in Hs' by done. injection Hs' as <-.
      split; [done|]. intros j q q' Hq Hq'. rewrite Hq in Hq'.
      injection Hq' as <-. by repeat split. }
  split; [done|]. split; [done|]. do 4 (split; [done|]).
  split; [by apply handleMouseUp_idle|].
  intros c e. by apply handleMouseMove_idle.
Qed.

Lemma release_ends_drag_witness :
  ∃ s s' p p',
    run dragFarFromHome initialState = Some s
    ∧ draggedIndex s = Some 4%nat
    ∧ handleMouseUp s = Some s'
    ∧ draggedIndex s' = None
    ∧ pieces s !! 4%nat = Some p ∧ pieces s' !! 4%nat = Some p'
    ∧ same_cut p p'
    ∧ pieces s' !! 5%nat = pieces s !! 5%nat.
Proof.
  pose (s := default initialState (run dragFarFromHome initialState)).
  assert (run dragFarFromHome initialState = Some s) as Hs.
  { vm_compute. reflexivity. }
  assert (draggedIndex s = Some 4%nat) as Hd.
  { vm_compute. reflexivity. }
  assert (length (pieces s) = 1000%nat) as Hlen.
  { vm_compute. reflexivity. }
  assert (drag_in_range s) as Hr.
  { intros i Hi. rewrite Hd in Hi. injection Hi as <-. rewrite Hlen. lia. }
  destruct (release_ends_drag s Hr)
    as (s' & Hs' & Hidle & Hlen' & Hother & Hcut & _).
  destruct (lookup_lt_is_Some_2 (pieces s) 4) as [p Hp];
    [rewrite Hlen; lia|].
  destruct (lookup_lt_is_Some_2 (pieces s') 4) as [p' Hp'];
    [rewrite Hlen', Hlen; lia|].
  exists s, s', p, p'.
  split; [exact Hs|]. split; [exact Hd|]. split; [exact Hs'|].
  split; [exact Hidle|]. split; [exact Hp|]. split; [exact Hp'|].
  split; [exact (Hcut 4%nat p p' Hp Hp')|].
  apply Hother. rewrite Hd. discriminate.
Defined.


(** ** Solve and scramble, continued *)

Lemma run_image (evs : list Event) (s s' : State) :
  Forall (λ ev, is_load ev = false) evs →
  run evs s = Some s' → image s' = image s.
Proof.
  intros Hevs. revert s. induction Hevs as [|ev evs Hev _ IH]; intros s.
  - by intros [= <-].
  - cbn [run]. destruct (step ev s) as [s1|] eqn:Hs1; [|done].
    cbn [mbind option_bind]. intros Hs'.
    rewrite (IH s1 Hs'). by apply (step_image ev).
Qed.

(** Solve restores the solved layout of the loaded image whatever was
    dragged, snapped or scrambled since the load; it replaces the tiles and
    nothing else: a tile held at that moment stays held, with its offset. *)
Theorem solve_after_anything (before : list Event) (img : Img.t)
    (innerWidth : Q) (random : nat → Q) (after : list Event) :
  Forall (λ ev, is_load ev = false) before →
  Forall (λ ev, is_load ev = false) after →
  ∃ s, run (before ++ ImgLoad img innerWidth random :: after) initialState
       = Some s
    ∧ pieces (fixPuzzle s) = solvedPieces img
    ∧ draggedIndex (fixPuzzle s) = draggedIndex s
    ∧ offsetRef (fixPuzzle s) = offsetRef s
    ∧ scaleRef (fixPuzzle s) = scaleRef s
    ∧ canvasSize (fixPuzzle s) = canvasSize s.
Proof.
  intros Hbefore Hafter.
  destruct (run_blank before initialState) as (s0 & Hs0 & _ & _ & Hd0);
    [apply blank_initialState|done|].
  destruct (run_grid_inv after (onload img innerWidth random s0))
    as (s & Hs & _ & _).
  { apply onload_grid_inv. }
  { intros i Hi. cbn in Hi. congruence. }
  exists s. split.
  { rewrite run_app, Hs0. cbn [mbind option_bind run step]. exact Hs. }
  assert (image s = Some img) as Himg.
  { by rewrite (run_image after _ s Hafter Hs). }
  unfold fixPuzzle. by rewrite Himg.
Qed.

Lemma solve_after_anything_witness :
  ∃ s, run ([MouseUp]
            ++ ImgLoad exampleImage 2000 (λ _, 0)
               :: [MessUpClick (λ _, 1 # 2);
                   MouseDown atOrigin (pointer 1000 600)])
         initialState = Some s
    ∧ pieces (fixPuzzle s) = solvedPieces exampleImage.
Proof.
  destruct (solve_after_anything [MouseUp] exampleImage 2000 (λ _, 0)
              [MessUpClick (λ _, 1 # 2); MouseDown atOrigin (pointer 1000 600)])
    as (s & Hs & Hp & _); [repeat constructor..|].
  exists s. split; [exact Hs|exact Hp].
Defined.

(** Solve and scramble do not end a drag: when tile [i] is held and the
    puzzle is solved (or scrambled) before the release, the next
    pointer-move takes tile [i] of the rebuilt sequence to
    [point / scale - dragOffset], with the offset captured at the
    pointer-down, and leaves the other rebuilt tiles alone. *)
Theorem rebuild_during_drag (s : State) (img : Img.t) (i : nat)
    (rect : DOMRect.t) (e : MouseEvent) (rebuild : Event) :
  image s = Some img →
  draggedIndex s = Some i → (i < ROWS * COLS)%nat →
  (rebuild = FixClick ∨ ∃ random, rebuild = MessUpClick random) →
  ∃ s1 s2 p2,
    step rebuild s = Some s1
    ∧ draggedIndex s1 = Some i
    ∧ handleMouseMove (Some rect) e s1 = Some s2
    ∧ pieces s2 !! i = Some p2
    ∧ Piece.x p2
      = (clientX e - DOMRect.left rect) / scaleRef s - Point.x (offsetRef s)
    ∧ Piece.y p2
      = (clientY e - DOMRect.top rect) / scaleRef s - Point.y (offsetRef s)
    ∧ cut_of img i p2
    ∧ ∀ j, j ≠ i → pieces s2 !! j = pieces s1 !! j.
Proof.
  intros Himg Hd Hi Hrebuild.
  assert (∃ ps, step rebuild s = Some (setPieces ps s)
            ∧ length ps = (ROWS * COLS)%nat
            ∧ ∀ j q, ps !! j = Some q → cut_of img j q) as (ps & Hs1 & Hl & Hc).
  { destruct Hrebuild as [->|[random ->]]; cbn [step].
    - exists (solvedPieces img). unfold fixPuzzle. rewrite Himg.
      split; [done|]. split; [apply solvedPieces_length|].
      apply solvedPieces_cut.
    - exists (initializePieces random img). unfold messUpPuzzle. rewrite Himg.
      split; [done|]. split; [apply initializePieces_length|].
      apply initializePieces_cut. }
  destruct (lookup_lt_is_Some_2 ps i ltac:(lia)) as [p Hp].
  eexists. eexists. eexists. split; [exact Hs1|]. split; [exact Hd|].
  split; [by apply (handleMouseMove_drag rect e _ i p)|].
  cbn [pieces setPieces scaleRef offsetRef].
  split; [apply list_lookup_insert_eq; lia|].
  split; [done|]. split; [done|]. split; [exact (Hc i p Hp)|].
  intros j Hj. by apply list_lookup_insert_ne.
Qed.

Lemma rebuild_during_drag_witness :
  ∃ s1, step FixClick
          (setDraggedIndex (Some 7%nat) (setImage exampleImage initialState))
        = Some s1
    ∧ draggedIndex s1 = Some 7%nat.
Proof.
  destruct (rebuild_during_drag
              (setDraggedIndex (Some 7%nat)
                 (setImage exampleImage initialState))
              exampleImage 7 (DOMRect.mk 0 0) (pointer 1 1) FixClick)
    as (s1 & s2 & p2 & Hs1 & Hd & _).
  - reflexivity.
  - reflexivity.
  - unfold ROWS, COLS. lia.
  - by left.
  - exists s1. split; [exact Hs1|exact Hd].
Defined.
